(** * snaapi middleware: a shallow embedding of the composition engine
      and of the built-in middleware, with the properties of the
      specification stated over it.

    Source files embedded here:
    - [compose], [getContext], [setContext], [withContext],
      [MiddlewareChain] (composition module)
    - [rateLimit] (ratelimit.ts)
    - [timeout] (timeout module)
    - [cors] (cors module)
    - [logger] (logger.ts)

    Modelling conventions.
    - JavaScript numbers that the code uses as integers (timestamps in
      milliseconds, counters, status codes, the dispatch cursor) are [Z].
    - A promise that has settled is an [Outcome]: fulfilled with a
      response or rejected with a thrown value.  Every [await next()] is
      run to completion before the stage goes on, which is the semantics
      of one request on a single-threaded event loop.
    - A middleware is a resumption ([Step]): it runs up to its call of
      [next], hands over the world it has produced so far, and is resumed
      with the outcome of the continuation and the world as it is then.
      A stage that never reaches [Await] has not invoked its continuation.
      A [Step] is a finite tree: the stages and handlers this file
      speaks of settle, each returns or raises after invoking its
      continuation finitely often.  A stage whose promise stays pending
      is outside the model, and so is what the engine does with it.
    - A [Response] carries the guard of its headers: [headers.set] on
      immutable headers (those of [Response.redirect] or of a fetched
      response) throws a [TypeError].  [with_header] is the write on the
      responses the middleware construct themselves; [set_header] is the
      write on a response that came from the continuation.
    - The [Map] of the rate limiter and the objects hanging off a request
      are finite maps ([gmap]) in an explicit store. *)

From Stdlib Require Import ZArith String Ascii Lia Sorted.
From stdpp Require Import base option list gmap strings pretty.

Open Scope Z_scope.

(** ** Strings, JSON fragments *)

Definition dquote : string := String "034"%char EmptyString.

(** [JSON.stringify] of a string without characters that need escaping. *)
Definition json_string (s : string) : string := dquote +:+ s +:+ dquote.

(** [JSON.stringify({ k: v })] for one member whose value is already rendered. *)
Definition json_member (k v : string) : string := json_string k +:+ ":" +:+ v.

Definition lower_ascii (c : ascii) : ascii :=
  let n := nat_of_ascii c in
  if ((65 <=? n) && (n <=? 90))%nat then ascii_of_nat (n + 32) else c.

Fixpoint lower (s : string) : string :=
  match s with
  | EmptyString => EmptyString
  | String c s' => String (lower_ascii c) (lower s')
  end.

(** [Array.prototype.join] *)
Fixpoint join (sep : string) (l : list string) : string :=
  match l with
  | [] => EmptyString
  | [x] => x
  | x :: rest => x +:+ sep +:+ join sep rest
  end.

(** ** The [Headers] object: names compare case-insensitively. *)

Definition Headers := list (string * string).

Definition same_name (a b : string) : bool := String.eqb (lower a) (lower b).

Fixpoint header_values (h : Headers) (name : string) : list string :=
  match h with
  | [] => []
  | (n, v) :: rest =>
      if same_name name n then v :: header_values rest name else header_values rest name
  end.

(** [headers.get(name)]: the values of all entries of that name joined
    with a comma and a space, [null] when there is none. *)
Definition headers_get (h : Headers) (name : string) : option string :=
  match header_values h name with
  | [] => None
  | vs => Some (join ", " vs)
  end.

(** [headers.set(name, value)]: the first entry of that name takes the
    value, the others are removed; appended when there is none. *)
Fixpoint headers_set_go (found : bool) (name value : string) (h : Headers) : Headers :=
  match h with
  | [] => if found then [] else [(name, value)]
  | (n, v) :: rest =>
      if same_name name n
      then (if found then headers_set_go true name value rest
            else (n, value) :: headers_set_go true name value rest)
      else (n, v) :: headers_set_go found name value rest
  end.

Definition headers_set (h : Headers) (name value : string) : Headers :=
  headers_set_go false name value h.

(** ** Requests, responses, thrown values *)

Record Request := mkRequest {
  method : string;
  url : string;
  req_headers : Headers
}.

(** [body] is [None] for a response built with a [null] body.  [guard]
    is the guard of the headers object: [None] when the headers can be
    written, as on a response made with [new Response]; [Some message]
    when they are immutable, as on the result of [Response.redirect] or
    of [fetch], [message] being the message of the [TypeError] that a
    write to them throws. *)
Record Response := mkResponse {
  status : Z;
  headers : Headers;
  body : option string;
  guard : option string
}.

Definition header (r : Response) (name : string) : option string :=
  headers_get (headers r) name.

(** [r.headers.set(name, value)] on a response whose headers can be
    written. *)
Definition with_header (r : Response) (name value : string) : Response :=
  {| status := status r; headers := headers_set (headers r) name value; body := body r;
     guard := guard r |}.

(** Anything can be thrown in JavaScript: an [Error] object with a
    message, or some other value. *)
Inductive Exn :=
| ErrorObj (message : string)
| Thrown (value : string).

Inductive Outcome :=
| Fulfilled (r : Response)
| Rejected (e : Exn).

(** [r.headers.set(name, value)] on any response: immutable headers
    make it throw. *)
Definition set_header (r : Response) (name value : string) : Response + Exn :=
  match guard r with
  | Some message => inr (ErrorObj message)
  | None => inl (with_header r name value)
  end.

Definition is_fulfilled (o : Outcome) : bool :=
  match o with Fulfilled _ => true | Rejected _ => false end.

(** ** Middleware as resumptions *)

Section Resumptions.
Context {W : Type}.

Inductive Step :=
| Done (o : Outcome) (w : W)
| Await (w : W) (k : Outcome -> W -> Step).

Definition Middleware := Request -> W -> Step.
Definition Handler := Request -> W -> Outcome * W.

(** Run a stage against a continuation given as a function of the world,
    counting how many times the continuation is invoked. *)
Fixpoint runWith (next : W -> Outcome * W) (s : Step) (calls : nat) : Outcome * W * nat :=
  match s with
  | Done o w => (o, w, calls)
  | Await w k =>
      let '(o, w') := next w in
      runWith next (k o w') (S calls)
  end.

Definition serve (m : Middleware) (h : Handler) (req : Request) (w : W) : Outcome * W * nat :=
  runWith (h req) (m req w) 0%nat.
End Resumptions.

Arguments Step : clear implicits.
Arguments Middleware : clear implicits.
Arguments Handler : clear implicits.

(** ** The composition engine ([compose]) *)

Module Compose.
Section Dispatch.
Context {W : Type}.

Definition ErrorHandler := Exn -> Request -> W -> Outcome * W.

(** [MiddlewareOptions]: both fields are optional in the source. *)
Record MiddlewareOptions := mkOptions {
  continueOnError : option bool;
  errorHandler : option ErrorHandler
}.

(** What a run leaves behind for an observer: which stage functions
    were entered (index [length middlewares] is the terminal handler)
    and what went to [console.error]. *)
Inductive Event :=
| Invoke (i : Z)
| ConsoleError (label : string) (e : Exn).

(** The state one [composedHandler] call closes over: the cursor
    [index], the world the stages act on, and the observations. *)
Record DState := mkDState {
  index : Z;
  world : W;
  log : list Event
}.

Definition set_index (i : Z) (st : DState) : DState :=
  {| index := i; world := world st; log := log st |}.
Definition set_world (w : W) (st : DState) : DState :=
  {| index := index st; world := w; log := log st |}.
Definition record (ev : Event) (st : DState) : DState :=
  {| index := index st; world := world st; log := log st ++ [ev] |}.

Definition doubleInvocation : Exn := ErrorObj "next() called multiple times".
Definition noHandlerFound : Exn := ErrorObj "No handler found".
Definition notAFunction : Exn := ErrorObj "fn is not a function".

Definition internalServerError : Response :=
  {| status := 500;
     headers := [("Content-Type", "application/json")];
     body := Some ("{" +:+ json_member "error" (json_string "Internal Server Error") +:+ "}");
     guard := None |}.

Definition defaultErrorHandler (error : Exn) (st : DState) : Outcome * DState :=
  (Fulfilled internalServerError, record (ConsoleError "Unhandled middleware error:" error) st).

Variable middlewares : list (Middleware W).
Variable handler : Handler W.
Variable options : MiddlewareOptions.

Definition continues : bool := default false (continueOnError options).

Definition callErrorHandler (req : Request) (error : Exn) (st : DState) : Outcome * DState :=
  match errorHandler options with
  | None => defaultErrorHandler error st
  | Some eh => let '(o, w) := eh error req (world st) in (o, set_world w st)
  end.

(** Running the body of one stage: each [Await] is a call of the
    closure [() => dispatch(i + 1)]. *)
Fixpoint runStage (next : DState -> option (Outcome * DState)) (s : Step W) (st : DState)
  : option (Outcome * DState) :=
  match s with
  | Done o w => Some (o, set_world w st)
  | Await w k =>
      match next (set_world w st) with
      | None => None
      | Some (o, st') => runStage next (k o (world st')) st'
      end
  end.

(** The [catch] block of [dispatch(i)]; [retry] is [dispatch(i + 1)].
    A stage that returned is not touched. *)
Definition catch (req : Request) (retry : DState -> option (Outcome * DState))
    (r : option (Outcome * DState)) : option (Outcome * DState) :=
  match r with
  | Some (Rejected error, st) =>
      if continues
      then retry (record (ConsoleError "Middleware error:" error) st)
      else Some (callErrorHandler req error st)
  | _ => r
  end.

(** [dispatch(i)].  The recursion of the source is on [i + 1] only and
    is cut by the cursor, so it is bounded; [fuel] makes that bound
    explicit and [None] means the bound given was too small. *)
Fixpoint dispatch (req : Request) (fuel : nat) (i : Z) (st : DState) : option (Outcome * DState) :=
  match fuel with
  | O => None
  | S fuel' =>
      if i <=? index st then Some (Rejected doubleInvocation, st)
      else
        let st := set_index i st in
        let len := Z.of_nat (length middlewares) in
        if i <? len then
          catch req (dispatch req fuel' (i + 1))
            (match middlewares !! Z.to_nat i with
             | Some fn => runStage (dispatch req fuel' (i + 1)) (fn req (world st)) (record (Invoke i) st)
             | None => Some (Rejected notAFunction, st)
             end)
        else if i =? len then
          catch req (dispatch req fuel' (i + 1))
            (let st1 := record (Invoke i) st in
             let '(o, w) := handler req (world st1) in
             Some (o, set_world w st1))
        else Some (Rejected noHandlerFound, st)
  end.

Definition initial (w : W) : DState := {| index := -1; world := w; log := [] |}.

(** The fuel that suffices to run [dispatch(i)]: the cursor can still
    advance to [length middlewares + 1]. *)
Definition enough (fuel : nat) (i : Z) : Prop :=
  (1 <= fuel)%nat /\ Z.of_nat (length middlewares) + 2 - i <= Z.of_nat fuel.

(** The fuel that always suffices from the entry point. *)
Definition depth : nat := S (S (length middlewares)).

Definition composedHandler (req : Request) (w : W) : option (Outcome * DState) :=
  dispatch req depth 0 (initial w).

(** The stage indices entered during a run, in order. *)
Fixpoint invoked (l : list Event) : list Z :=
  match l with
  | [] => []
  | Invoke i :: l' => i :: invoked l'
  | ConsoleError _ _ :: l' => invoked l'
  end.

(** No stage was entered twice, and none beyond the cursor. *)
Definition ordered (st : DState) : Prop :=
  NoDup (invoked (log st)) /\ forall j, j ∈ invoked (log st) -> j <= index st.

(** How a piece of a run may move the state. *)
Definition advances (st st' : DState) : Prop :=
  index st <= index st' /\ (ordered st -> ordered st').
End Dispatch.

Arguments MiddlewareOptions : clear implicits.
Arguments DState : clear implicits.
Arguments ErrorHandler : clear implicits.

(** [compose(middlewares, handler, options = {})] *)
Definition noOptions {W} : MiddlewareOptions W :=
  {| continueOnError := None; errorHandler := None |}.

Definition compose {W} (middlewares : list (Middleware W)) (handler : Handler W)
    (options : MiddlewareOptions W) : Request -> W -> option (Outcome * DState W) :=
  composedHandler middlewares handler options.

(** Stage shapes used in the statements. *)
Section Shapes.
Context {W : Type}.

(** Calls the continuation once and returns its result unchanged. *)
Definition pass_through (m : Middleware W) : Prop :=
  forall req w, exists k, m req w = Await w k /\ forall o w', k o w' = Done o w'.

Definition passThrough : Middleware W := fun _ w => Await w (fun o w' => Done o w').

(** Calls the continuation, and whatever comes back calls it again and
    lets the result of the second call through. *)
Definition callsTwice : Middleware W :=
  fun _ w => Await w (fun _ w1 => Await w1 (fun o w2 => Done o w2)).

(** Invokes its continuation and, whatever comes back, invokes it a
    second time; the error the second call raises is not caught. *)
Definition invokes_twice (m : Middleware W) : Prop :=
  forall req w, exists w1 k1, m req w = Await w1 k1 /\
    forall o w', exists w2 k2, k1 o w' = Await w2 k2 /\
      forall w3, exists w4, k2 (Rejected doubleInvocation) w3 = Done (Rejected doubleInvocation) w4.

(** A stage that raises only before it invokes its continuation:
    it raises at once, or answers at once, or invokes the continuation
    once and turns a response into a response. *)
Definition raises_only_before_next (m : Middleware W) : Prop :=
  forall req w,
    (exists e w', m req w = Done (Rejected e) w') \/
    (exists r w', m req w = Done (Fulfilled r) w') \/
    (exists w1 k, m req w = Await w1 k /\
       forall r w', exists r' w'', k (Fulfilled r) w' = Done (Fulfilled r') w'').

(** Raises at once, before any call of the continuation. *)
Definition raisesFirst (e : Exn) : Middleware W := fun _ w => Done (Rejected e) w.

(** Invokes the continuation and raises when it has returned. *)
Definition raisesAfterNext (e : Exn) : Middleware W :=
  fun _ w => Await w (fun _ w' => Done (Rejected e) w').
End Shapes.

End Compose.

(** ** The rate limiter ([rateLimit]) *)

Module RateLimit.

(** An entry of the [clients] map. *)
Record Entry := mkEntry {
  count : Z;
  resetTime : Z
}.

(** What the middleware reads and writes: [Date.now()] and the map
    the closure returned by [rateLimit(options)] shares between requests. *)
Record World := mkWorld {
  clock : Z;
  clients : gmap string Entry
}.

Definition set_clients (c : gmap string Entry) (w : World) : World :=
  {| clock := clock w; clients := c |}.
Definition at_time (now : Z) (w : World) : World :=
  {| clock := now; clients := clients w |}.

Record RateLimitOptions := mkOptions {
  windowMs : Z;
  maxRequests : Z;
  keyGenerator : option (Request -> string);
  skipSuccessfulRequests : option bool
}.

(** [Math.ceil(x / d)] on integers, for a positive [d]. *)
Definition ceil_div (x d : Z) : Z := - ((- x) / d).

Section Limiter.
(** [new URL(u).hostname], a function of the host platform. *)
Variable hostname : string -> string.
Variable options : RateLimitOptions.

Definition keyOf (req : Request) : string :=
  match keyGenerator options with
  | Some g => g req
  | None => hostname (url req)
  end.

Definition skips : bool := default false (skipSuccessfulRequests options).

Definition retryAfter (client : Entry) (now : Z) : Z :=
  ceil_div (resetTime client - now) 1000.

Definition tooManyRequests (client : Entry) (now : Z) : Response :=
  {| status := 429;
     headers :=
       [("Content-Type", "application/json");
        ("Retry-After", pretty (retryAfter client now));
        ("X-RateLimit-Limit", pretty (maxRequests options));
        ("X-RateLimit-Remaining", pretty (Z.max 0 (maxRequests options - count client)));
        ("X-RateLimit-Reset", pretty (resetTime client))];
     body := Some ("{" +:+ json_member "error" (json_string "Too Many Requests") +:+ ","
                   +:+ json_member "retryAfter" (pretty (retryAfter client now)) +:+ "}");
     guard := None |}.

(** What the three [response.headers.set] calls at the end make of a
    response whose headers can be written. *)
Definition annotate (currentClient : Entry) (response : Response) : Response :=
  with_header
    (with_header
       (with_header response "X-RateLimit-Limit" (pretty (maxRequests options)))
       "X-RateLimit-Remaining" (pretty (Z.max 0 (maxRequests options - count currentClient))))
    "X-RateLimit-Reset" (pretty (resetTime currentClient)).

(** The three [response.headers.set] calls at the end, on whatever
    response the continuation answered. *)
Definition writeLimits (currentClient : Entry) (response : Response) : Response + Exn :=
  match set_header response "X-RateLimit-Limit" (pretty (maxRequests options)) with
  | inr e => inr e
  | inl r1 =>
      match set_header r1 "X-RateLimit-Remaining"
              (pretty (Z.max 0 (maxRequests options - count currentClient))) with
      | inr e => inr e
      | inl r2 => set_header r2 "X-RateLimit-Reset" (pretty (resetTime currentClient))
      end
  end.

(** What the middleware returns for a response of the continuation once
    the entry to show is known: the response with the three headers, or
    the error of the first write. *)
Definition returned (currentClient : Entry) (response : Response) : Outcome :=
  match guard response with
  | None => Fulfilled (annotate currentClient response)
  | Some message => Rejected (ErrorObj message)
  end.

(** The code after [await next()]; an error of the continuation is
    not caught, nor is the error of a header write. *)
Definition afterNext (key : string) (o : Outcome) (w : World) : Step World :=
  match o with
  | Rejected e => Done (Rejected e) w
  | Fulfilled response =>
      let w1 :=
        if skips && (status response <? 400)
        then match clients w !! key with
             | Some currentClient =>
                 set_clients (<[key := {| count := Z.max 0 (count currentClient - 1);
                                          resetTime := resetTime currentClient |}]> (clients w)) w
             | None => w
             end
        else w in
      match clients w1 !! key with
      | Some currentClient =>
          match writeLimits currentClient response with
          | inl annotated => Done (Fulfilled annotated) w1
          | inr e => Done (Rejected e) w1
          end
      | None => Done (Fulfilled response) w1
      end
  end.

Definition rateLimit : Middleware World := fun req w =>
  let key := keyOf req in
  let now := clock w in
  match clients w !! key with
  | Some client =>
      if now >? resetTime client
      then Await (set_clients (<[key := {| count := 1; resetTime := now + windowMs options |}]> (clients w)) w)
                 (afterNext key)
      else
        let client' := {| count := count client + 1; resetTime := resetTime client |} in
        let w1 := set_clients (<[key := client']> (clients w)) w in
        if count client' >? maxRequests options
        then Done (Fulfilled (tooManyRequests client' now)) w1
        else Await w1 (afterNext key)
  | None =>
      Await (set_clients (<[key := {| count := 1; resetTime := now + windowMs options |}]> (clients w)) w)
            (afterNext key)
  end.

(** The entry a key gets when its window starts, and the entry after
    [client.count++]. *)
Definition opened (now : Z) : Entry :=
  {| count := 1; resetTime := now + windowMs options |}.
Definition bumped (client : Entry) : Entry :=
  {| count := count client + 1; resetTime := resetTime client |}.
Definition uncounted (client : Entry) : Entry :=
  {| count := Z.max 0 (count client - 1); resetTime := resetTime client |}.
Definition store (key : string) (client : Entry) (w : World) : World :=
  set_clients (<[key := client]> (clients w)) w.

(** One request at time [now] whose continuation answers [response];
    the result, the world afterwards and the number of times the
    continuation ran. *)
Definition request (req : Request) (now : Z) (response : Response) (w : World)
  : Outcome * World * nat :=
  serve rateLimit (fun _ w' => (Fulfilled response, w')) req (at_time now w).

(** Requests one after the other, each completed before the next. *)
Fixpoint requests (calls : list (Request * Z * Response)) (w : World)
  : list (Outcome * nat) * World :=
  match calls with
  | [] => ([], w)
  | (req, now, response) :: rest =>
      let '(o, w1, n) := request req now response w in
      let '(os, w2) := requests rest w1 in
      ((o, n) :: os, w2)
  end.

(** A request that went through: the continuation ran once; its
    response came back with status and body as they were when its
    headers could be written, and the write raised when they could not. *)
Definition allowed (call : Request * Z * Response) (res : Outcome * nat) : Prop :=
  snd res = 1%nat /\
  match guard (snd call) with
  | None => exists r, fst res = Fulfilled r /\
                      status r = status (snd call) /\ body r = body (snd call)
  | Some message => fst res = Rejected (ErrorObj message)
  end.

(** What comes back from a request that went through, [remaining] being
    the text of the remaining count: the response with that header, or
    the error of the header write. *)
Definition answered (response : Response) (remaining : string) (o : Outcome) : Prop :=
  match guard response with
  | None => exists a, o = Fulfilled a /\
                      header a "X-RateLimit-Remaining" = Some remaining /\
                      status a = status response /\ body a = body response
  | Some message => o = Rejected (ErrorObj message)
  end.
End Limiter.

Definition status_of (o : Outcome) : option Z :=
  match o with
  | Fulfilled r => Some (status r)
  | Rejected _ => None
  end.
End RateLimit.

(** ** The timeout guard ([timeout]) *)

Module Timeout.

(** The timer started by [setTimeout].  While the stage awaits the
    race the world can move from [Armed] to [Fired]: the deadline has
    elapsed and the abort listener has rejected [timeoutPromise]. *)
Inductive Timer :=
| Idle
| Armed (ms : Z)
| Fired
| Cleared.

(** [clearTimeout]: cancels a pending timer, does nothing otherwise. *)
Definition clearTimeout (t : Timer) : Timer :=
  match t with
  | Armed _ => Cleared
  | _ => t
  end.

Definition timeoutError : Exn := ErrorObj "Request timeout".

Definition requestTimeout : Response :=
  {| status := 408;
     headers := [("Content-Type", "application/json")];
     body := Some ("{" +:+ json_member "error" (json_string "Request Timeout") +:+ "}");
     guard := None |}.

(** [await Promise.race([next(), timeoutPromise])]: when the timer has
    fired before the continuation settled, the race is lost to the
    rejection of [timeoutPromise] and the continuation's own outcome
    is dropped. *)
Definition race (o : Outcome) (t : Timer) : Outcome :=
  match t with
  | Fired => Rejected timeoutError
  | _ => o
  end.

(** [error instanceof Error && error.message === "Request timeout"] *)
Definition isTimeout (error : Exn) : bool :=
  match error with
  | ErrorObj message => String.eqb message "Request timeout"
  | Thrown _ => false
  end.

Definition timeout (timeoutMs : Z) : Middleware Timer := fun _req _ =>
  Await (Armed timeoutMs) (fun o t =>
    match race o t with
    | Fulfilled response => Done (Fulfilled response) (clearTimeout t)
    | Rejected error =>
        if isTimeout error
        then Done (Fulfilled requestTimeout) (clearTimeout t)
        else Done (Rejected error) (clearTimeout t)
    end).

(** Continuations for the two orders of events. *)
Definition settlesInTime (o : Outcome) : Handler Timer := fun _ t => (o, t).
Definition settlesTooLate (o : Outcome) : Handler Timer := fun _ _ => (o, Fired).
End Timeout.

(** ** The context store ([getContext], [setContext], [withContext]) *)

Module Context.
Section Store.
(** The type of context values ([unknown] in the source). *)
Context {V : Type}.

(** Context objects have identity; requests are objects too, and the
    [context] property of each is a reference or [undefined]. *)
Definition loc := positive.
Definition ReqRef := nat.

Record World := mkWorld {
  heap : gmap loc (gmap string V);
  contextOf : gmap ReqRef loc
}.

(** A fresh object literal. *)
Definition alloc (obj : gmap string V) (w : World) : loc * World :=
  let l := fresh (dom (heap w)) in
  (l, {| heap := <[l := obj]> (heap w); contextOf := contextOf w |}).

(** [context[key] = value] through a reference. *)
Definition write (l : loc) (key : string) (value : V) (w : World) : World :=
  {| heap := alter (fun obj => <[key := value]> obj) l (heap w); contextOf := contextOf w |}.

(** [req.context = l] *)
Definition attach (req : ReqRef) (l : loc) (w : World) : World :=
  {| heap := heap w; contextOf := <[req := l]> (contextOf w) |}.

Definition read (l : loc) (key : string) (w : World) : option V :=
  heap w !! l ≫= fun obj => obj !! key.

(** [return req.context || {}] *)
Definition getContext (req : ReqRef) (w : World) : loc * World :=
  match contextOf w !! req with
  | Some l => (l, w)
  | None => alloc ∅ w
  end.

Definition setContext (req : ReqRef) (key : string) (value : V) (w : World) : World :=
  let '(context, w1) := getContext req w in
  attach req context (write context key value w1).

(** [withContext(initialContext)]: attaches a copy and goes on. *)
Definition withContext (initialContext : gmap string V) (req : ReqRef) (w : World) : Step World :=
  let '(l, w1) := alloc initialContext w in
  Await (attach req l w1) (fun o w' => Done o w').
End Store.
Arguments World : clear implicits.
End Context.

(** ** CORS ([cors]) *)

Module Cors.

(** [origin?: string | string[]] *)
Inductive Origin :=
| OriginString (s : string)
| OriginList (l : list string).

Record CorsOptions := mkOptions {
  origin : option Origin;
  methods : option (list string);
  headers : option (list string);
  credentials : option bool;
  maxAge : option Z
}.

Definition truthy (s : string) : bool :=
  match s with
  | EmptyString => false
  | String _ _ => true
  end.

Definition includes (l : list string) (s : string) : bool := existsb (String.eqb s) l.

Section Middleware.
Context {W : Type}.
Variable options : CorsOptions.

Definition origin' : Origin := default (OriginString "*") (origin options).
Definition methods' : list string :=
  default ["GET"; "POST"; "PUT"; "DELETE"; "OPTIONS"]%string (methods options).
Definition headers' : list string :=
  default ["Content-Type"; "Authorization"]%string (headers options).
Definition credentials' : bool := default false (credentials options).
Definition maxAge' : Z := default 86400 (maxAge options).

Definition allowOrigin (req : Request) (response : Response) : Response :=
  match origin' with
  | OriginString s => with_header response "Access-Control-Allow-Origin" s
  | OriginList l =>
      match headers_get (req_headers req) "Origin" with
      | Some requestOrigin =>
          if truthy requestOrigin && includes l requestOrigin
          then with_header response "Access-Control-Allow-Origin" requestOrigin
          else response
      | None => response
      end
  end.

Definition allowCredentials (response : Response) : Response :=
  if credentials' then with_header response "Access-Control-Allow-Credentials" "true"
  else response.

Definition preflight (req : Request) : Response :=
  let response := mkResponse 204 [] None None in
  let response := allowOrigin req response in
  let response := with_header response "Access-Control-Allow-Methods" (join ", " methods') in
  let response := with_header response "Access-Control-Allow-Headers" (join ", " headers') in
  let response := with_header response "Access-Control-Max-Age" (pretty maxAge') in
  allowCredentials response.

(** The header writes after [await next()], on whatever response the
    continuation answered. *)
Definition setOrigin (req : Request) (response : Response) : Response + Exn :=
  match origin' with
  | OriginString s => set_header response "Access-Control-Allow-Origin" s
  | OriginList l =>
      match headers_get (req_headers req) "Origin" with
      | Some requestOrigin =>
          if truthy requestOrigin && includes l requestOrigin
          then set_header response "Access-Control-Allow-Origin" requestOrigin
          else inl response
      | None => inl response
      end
  end.

Definition setCredentials (response : Response) : Response + Exn :=
  if credentials' then set_header response "Access-Control-Allow-Credentials" "true"
  else inl response.

Definition cors : Middleware W := fun req w =>
  if String.eqb (method req) "OPTIONS"
  then Done (Fulfilled (preflight req)) w
  else Await w (fun o w' =>
         match o with
         | Fulfilled response =>
             match setOrigin req response with
             | inr e => Done (Rejected e) w'
             | inl r1 =>
                 match setCredentials r1 with
                 | inr e => Done (Rejected e) w'
                 | inl r2 => Done (Fulfilled r2) w'
                 end
             end
         | Rejected e => Done (Rejected e) w'
         end).
End Middleware.

Definition allowedOrigin (r : Response) : option string :=
  header r "Access-Control-Allow-Origin".
End Cors.

(** ** Concrete chains and requests used to exercise the statements *)

Module Samples.
Import Compose.

Definition request : Request :=
  {| method := "GET"; url := "http://example.test/items"; req_headers := [] |}.

Definition hello : Response :=
  {| status := 200; headers := [("Content-Type", "text/plain")]; body := Some "hello"%string;
     guard := None |}.

(** What [Response.redirect] makes: the headers are immutable. *)
Definition redirect : Response :=
  {| status := 302; headers := [("Location", "http://example.test/login")]; body := None;
     guard := Some "Headers are immutable."%string |}.

Definition boom : Exn := ErrorObj "boom".

(** Terminal handlers over a world without content. *)
Definition answers (r : Response) : Handler unit := fun _ w => (Fulfilled r, w).
Definition fails (e : Exn) : Handler unit := fun _ w => (Rejected e, w).

Definition onError (continue : bool) : MiddlewareOptions unit :=
  {| continueOnError := Some continue; errorHandler := None |}.

(** A stand-in for the hostname extraction of the platform. *)
Definition hostname : string -> string := fun _ => "example.test"%string.

Definition limit3 : RateLimit.RateLimitOptions :=
  {| RateLimit.windowMs := 60000; RateLimit.maxRequests := 3;
     RateLimit.keyGenerator := None; RateLimit.skipSuccessfulRequests := None |}.

Definition limit2skip : RateLimit.RateLimitOptions :=
  {| RateLimit.windowMs := 60000; RateLimit.maxRequests := 2;
     RateLimit.keyGenerator := None; RateLimit.skipSuccessfulRequests := Some true |}.

Definition freshLimiter : RateLimit.World :=
  {| RateLimit.clock := 0; RateLimit.clients := ∅ |}.

(** A preflight probe from an origin that is not on the allow-list. *)
Definition probe : Request :=
  {| method := "OPTIONS"; url := "http://example.test/items";
     req_headers := [("Origin", "https://b.com")] |}.

Definition allowA : Cors.CorsOptions :=
  {| Cors.origin := Some (Cors.OriginList ["https://a.com"%string]);
     Cors.methods := None; Cors.headers := None;
     Cors.credentials := None; Cors.maxAge := None |}.

(** The key of [request] has used up its three requests and its
    window ends at 61000. *)
Definition exhausted : RateLimit.World :=
  {| RateLimit.clock := 0;
     RateLimit.clients :=
       {[ "example.test"%string := {| RateLimit.count := 3; RateLimit.resetTime := 61000 |} ]} |}.
End Samples.

(** ** The chain builder ([MiddlewareChain], [withMiddleware]) *)

Module Chain.
Section Builder.
Context {W : Type}.

(** The two private fields of the class: the array [middlewares], which
    [use] pushes to in place, and the object [options], which
    [configure] replaces. *)
Record MiddlewareChain := mkChain {
  middlewares : list (Middleware W);
  options : Compose.MiddlewareOptions W
}.

(** [new MiddlewareChain()] *)
Definition createMiddlewareChain : MiddlewareChain :=
  {| middlewares := []; options := Compose.noOptions |}.

(** [this.middlewares.push(middleware); return this] *)
Definition use (middleware : Middleware W) (c : MiddlewareChain) : MiddlewareChain :=
  {| middlewares := middlewares c ++ [middleware]; options := options c |}.

(** [{ ...a, ...b }] on options objects whose fields are given or left out. *)
Definition spread (a b : Compose.MiddlewareOptions W) : Compose.MiddlewareOptions W :=
  {| Compose.continueOnError :=
       match Compose.continueOnError b with
       | Some x => Some x
       | None => Compose.continueOnError a
       end;
     Compose.errorHandler :=
       match Compose.errorHandler b with
       | Some x => Some x
       | None => Compose.errorHandler a
       end |}.

(** [this.options = { ...this.options, ...options }; return this] *)
Definition configure (o : Compose.MiddlewareOptions W) (c : MiddlewareChain) : MiddlewareChain :=
  {| middlewares := middlewares c; options := spread (options c) o |}.

(** [handle(handler)] is [compose(this.middlewares, handler, this.options)].
    [compose] reads the two option fields when it is called and keeps
    the array it was given, which is the array of the builder; the
    handler it returns reads that array on each request.  So the handler
    is a function of the builder as it is when the request arrives
    ([current]), with the options of the builder it was made from. *)
Definition handle (handler : Handler W) (c : MiddlewareChain)
    (current : MiddlewareChain) : Request -> W -> option (Outcome * Compose.DState W) :=
  Compose.compose (middlewares current) handler (options c).

(** [withMiddleware(middleware, handler)] *)
Definition withMiddleware (middleware : Middleware W) (handler : Handler W)
  : Request -> W -> option (Outcome * Compose.DState W) :=
  Compose.compose [middleware] handler Compose.noOptions.

(** A sequence of [use] calls, and a sequence of [configure] calls. *)
Definition useAll (ms : list (Middleware W)) (c : MiddlewareChain) : MiddlewareChain :=
  fold_left (fun acc m => use m acc) ms c.
Definition configureAll (os : list (Compose.MiddlewareOptions W)) (c : MiddlewareChain)
  : MiddlewareChain :=
  fold_left (fun acc o => configure o acc) os c.
End Builder.
Arguments MiddlewareChain : clear implicits.
End Chain.

(** ** Runs of the rate limiter with a continuation of any outcome *)

Module RateLimitRuns.
Import RateLimit.
Section Runs.
Variable hostname : string -> string.
Variable options : RateLimitOptions.

(** One request at time [now] whose continuation settles with [o] and
    leaves the map alone. *)
Definition requestWith (req : Request) (now : Z) (o : Outcome) (w : World)
  : Outcome * World * nat :=
  serve (rateLimit hostname options) (fun _ w' => (o, w')) req (at_time now w).

(** The condition under which the code takes the 429 branch. *)
Definition over_limit (req : Request) (w : World) : Prop :=
  exists c, clients w !! keyOf hostname options req = Some c /\
            clock w <= resetTime c /\ maxRequests options < count c + 1.

(** A request that was turned away: the continuation did not run and
    the answer is 429. *)
Definition rejected (res : Outcome * nat) : Prop :=
  snd res = 0%nat /\ status_of (fst res) = Some 429.

(** The request counts against the limit: successful requests are not
    skipped, or the response is not a successful one. *)
Definition counted (call : Request * Z * Response) : Prop :=
  skips options = false \/ 400 <= status (snd call).
End Runs.

(** The three header names the limiter writes. *)
Definition limiter_header (name : string) : bool :=
  same_name name "X-RateLimit-Limit" || same_name name "X-RateLimit-Remaining"
  || same_name name "X-RateLimit-Reset".
End RateLimitRuns.

(** ** The logger ([logger]) *)

Module Logger.

(** [format?: "simple" | "detailed" | "json"] *)
Inductive Format :=
| Simple
| Detailed
| Json.

Record LoggerOptions := mkOptions {
  includeBody : option bool;
  includeHeaders : option bool;
  format : option Format
}.

(** [req.body] and what [req.clone().text()] does with it: there is no
    body, or reading it yields a text, or reading it throws. *)
Inductive Body :=
| NoBody
| Readable (text : string)
| Unreadable.

(** The object [logData]; the last two members are spread in only
    under their conditions. *)
Record LogData := mkLogData {
  timestamp : string;
  log_method : string;
  path : string;
  query : string;
  log_status : Z;
  duration : string;
  userAgent : option string;
  log_headers : option (list (string * string));
  requestBody : option string
}.

(** One call of [console.log]: a text, the two-argument calls of the
    detailed format, or the object handed to [JSON.stringify]. *)
Inductive Entry :=
| Line (text : string)
| HeadersLine (entries : list (string * string))
| BodyLine (text : string)
| JsonLine (data : LogData).

Section Middleware.
(** The platform: values of [performance.now()], [(b - a).toFixed(2)],
    the two parts of [new URL(u)] the logger reads, and
    [Object.fromEntries(headers.entries())]. *)
Variable Time : Type.
Variable elapsed : Time -> Time -> string.
Variable pathname : string -> string.
Variable search : string -> string.
Variable fromEntries : Headers -> list (string * string).

(** Context values ([unknown]) and how a time is one. *)
Variable V : Type.
Variable ofTime : Time -> V.

(** What the logger reads and writes: the context store, the two
    clocks and the console. *)
Record World := mkWorld {
  store : Context.World V;
  perf : Time;
  date : string;
  console : list Entry
}.

Definition set_store (c : Context.World V) (w : World) : World :=
  {| store := c; perf := perf w; date := date w; console := console w |}.
Definition print (entries : list Entry) (w : World) : World :=
  {| store := store w; perf := perf w; date := date w; console := console w ++ entries |}.

Variable options : LoggerOptions.

Definition includeBody' : bool := default false (includeBody options).
Definition includeHeaders' : bool := default false (includeHeaders options).
Definition format' : Format := default Simple (format options).

(** The [if (includeBody && req.body)] block with its [try]. *)
Definition readBody (b : Body) : option string :=
  if includeBody' then
    match b with
    | NoBody => None
    | Readable text => Some text
    | Unreadable => Some "[Unable to read body]"%string
    end
  else None.

(** [requestBody && ...]: an empty text is not truthy. *)
Definition truthyBody (requestBody : option string) : option string :=
  match requestBody with
  | Some (String c rest) => Some (String c rest)
  | _ => None
  end.

Definition logData (req : Request) (stamp : string) (response : Response) (took : string)
    (requestBody : option string) : LogData :=
  {| timestamp := stamp;
     log_method := method req;
     path := pathname (url req);
     query := search (url req);
     log_status := status response;
     duration := took +:+ "ms";
     userAgent := headers_get (req_headers req) "User-Agent";
     log_headers := if includeHeaders' then Some (fromEntries (req_headers req)) else None;
     requestBody := truthyBody requestBody |}.

(** The [switch (format)]. *)
Definition entries (req : Request) (stamp : string) (response : Response) (took : string)
    (requestBody : option string) : list Entry :=
  match format' with
  | Json => [JsonLine (logData req stamp response took requestBody)]
  | Detailed =>
      [Line ("[" +:+ stamp +:+ "] " +:+ method req +:+ " " +:+ pathname (url req)
             +:+ search (url req) +:+ " -> " +:+ pretty (status response)
             +:+ " (" +:+ took +:+ "ms)")]
      ++ (if includeHeaders' then [HeadersLine (fromEntries (req_headers req))] else [])
      ++ (match truthyBody requestBody with
          | Some text => [BodyLine text]
          | None => []
          end)
  | Simple =>
      [Line (method req +:+ " " +:+ pathname (url req) +:+ " -> "
             +:+ pretty (status response) +:+ " (" +:+ took +:+ "ms)")]
  end.

(** [logger(options)] for the request object [ref] with body [b]. *)
Definition logger (ref : Context.ReqRef) (b : Body) : Middleware World := fun req w =>
  let start := perf w in
  let stamp := date w in
  let w1 := set_store (Context.setContext ref "startTime" (ofTime start) (store w)) w in
  let requestBody := readBody b in
  Await w1 (fun o w2 =>
    match o with
    | Rejected e => Done (Rejected e) w2
    | Fulfilled response =>
        let took := elapsed start (perf w2) in
        Done (Fulfilled response) (print (entries req stamp response took requestBody) w2)
    end).
End Middleware.
End Logger.

(** ** Shapes of runs of the composition engine *)

Module ComposeRuns.
Import Compose.
Section Runs.
Context {W : Type}.
Variable middlewares : list (Middleware W).

(** The stages were entered in the order of the chain: the indices
    entered increase strictly, each is the index of a middleware or of
    the terminal handler and is not beyond the cursor, and the cursor is
    at most one past the terminal handler. *)
Definition in_order (st : DState W) : Prop :=
  StronglySorted Z.lt (invoked (log st)) /\
  (forall j, j ∈ invoked (log st) ->
     0 <= j <= index st /\ j <= Z.of_nat (length middlewares)) /\
  -1 <= index st <= Z.of_nat (length middlewares) + 1.

(** The state in which [dispatch(j)] is called when the stages before
    [j] are pass-through and the chain was entered in world [w]. *)
Definition before (w : W) (j : Z) : DState W :=
  {| index := j - 1; world := w; log := map Invoke (seqZ 0 j) |}.
End Runs.

Section Shapes.
Context {W : Type}.

(** Raises before it does anything else, leaving the world as it is. *)
Definition raises_at_once (m : Middleware W) : Prop :=
  forall req w, exists e, m req w = Done (Rejected e) w.

(** A stage the chain behaves the same without, when errors are
    continued over. *)
Definition transparent (m : Middleware W) : Prop :=
  pass_through m \/ raises_at_once m.
End Shapes.
End ComposeRuns.

(** ** What the CORS middleware writes *)

Module CorsRuns.
Import Cors.

(** The origin the code allows for a request, if any: the configured
    string, or the origin the request names when the list has it. *)
Definition negotiated (options : CorsOptions) (req : Request) : option string :=
  match origin' options with
  | OriginString s => Some s
  | OriginList l =>
      match headers_get (req_headers req) "Origin" with
      | Some requestOrigin =>
          if truthy requestOrigin && includes l requestOrigin then Some requestOrigin else None
      | None => None
      end
  end.

(** Whether the code after [next()] writes a header at all: an origin
    is allowed, or credentials are configured. *)
Definition writes (options : CorsOptions) (req : Request) : bool :=
  match negotiated options req with
  | Some _ => true
  | None => credentials' options
  end.

(** The two header names written on every path, and the three more
    written on a preflight. *)
Definition decorated (name : string) : bool :=
  same_name name "Access-Control-Allow-Origin"
  || same_name name "Access-Control-Allow-Credentials".

Definition preflight_only (name : string) : bool :=
  same_name name "Access-Control-Allow-Methods"
  || same_name name "Access-Control-Allow-Headers"
  || same_name name "Access-Control-Max-Age".
End CorsRuns.

(** * Properties of the composition engine *)

Module ComposeFacts.
Import Compose.

Section Facts.
Context {W : Type}.
Variable middlewares : list (Middleware W).
Variable handler : Handler W.
Variable options : MiddlewareOptions W.
Variable req : Request.

Local Abbreviation len := (Z.of_nat (length middlewares)).
Local Abbreviation dispatch := (dispatch middlewares handler options req).
Local Abbreviation enough := (enough middlewares).

Lemma dispatch_S fuel i st :
  dispatch (S fuel) i st =
    if i <=? index st then Some (Rejected doubleInvocation, st)
    else if i <? len then
      catch options req (dispatch fuel (i + 1))
        (match middlewares !! Z.to_nat i with
         | Some fn => runStage (dispatch fuel (i + 1)) (fn req (world st))
                        (record (Invoke i) (set_index i st))
         | None => Some (Rejected notAFunction, set_index i st)
         end)
    else if i =? len then
      catch options req (dispatch fuel (i + 1))
        (let '(o, w) := handler req (world st) in
         Some (o, set_world w (record (Invoke i) (set_index i st))))
    else Some (Rejected noHandlerFound, set_index i st).
Proof. reflexivity. Qed.

Lemma dispatch_guard fuel i st :
  i <= index st ->
  dispatch (S fuel) i st = Some (Rejected doubleInvocation, st).
Proof.
  intros Hle. simpl. destruct (Z.leb_spec i (index st)); [reflexivity | lia].
Qed.

Lemma runStage_total (next : DState W -> option (Outcome * DState W)) s :
  (forall st, is_Some (next st)) ->
  forall st, is_Some (runStage next s st).
Proof.
  intros Hnext. induction s as [o w | w k IH]; intros st; simpl.
  - eauto.
  - destruct (Hnext (set_world w st)) as [[o st'] ->]. apply IH.
Qed.

Lemma catch_total retry r :
  (forall st, is_Some (retry st)) -> is_Some r -> is_Some (catch options req retry r).
Proof.
  intros Hretry [[o st] ->]. unfold catch.
  destruct o; [eauto |]. destruct (continues options); eauto.
Qed.

Lemma dispatch_total fuel :
  forall i st, enough fuel i -> is_Some (dispatch fuel i st).
Proof.
  induction fuel as [| fuel IH]; intros i st [H1 H2]; [lia |].
  simpl. destruct (Z.leb_spec i (index st)); [eauto |].
  destruct (Z.ltb_spec i len) as [Hlt | Hge].
  - assert (Hen : Compose.enough middlewares fuel (i + 1)) by (unfold Compose.enough; lia).
    apply catch_total; [intros; apply IH, Hen |].
    destruct (middlewares !! Z.to_nat i) as [fn |]; [| eauto].
    apply runStage_total. intros; apply IH, Hen.
  - destruct (Z.eqb_spec i len) as [-> | Hne]; [| eauto].
    apply catch_total; [intros; apply IH; unfold Compose.enough; lia |].
    destruct (handler req _) as [o w]. eauto.
Qed.

(** *** The cursor only advances and no stage is entered twice *)

Lemma invoked_app (l1 l2 : list Event) : invoked (l1 ++ l2) = invoked l1 ++ invoked l2.
Proof.
  induction l1 as [| ev l1 IH]; [reflexivity |].
  destruct ev; simpl; rewrite IH; reflexivity.
Qed.

Lemma advances_refl (st : DState W) : advances st st.
Proof. split; [lia | tauto]. Qed.

Lemma advances_trans (st1 st2 st3 : DState W) :
  advances st1 st2 -> advances st2 st3 -> advances st1 st3.
Proof. intros [H1 H2] [H3 H4]. split; [lia | tauto]. Qed.

Lemma advances_set_world w (st : DState W) : advances st (set_world w st).
Proof. split; [simpl; lia | intros H; exact H]. Qed.

Lemma advances_console label e (st : DState W) :
  advances st (record (ConsoleError label e) st).
Proof.
  split; [simpl; lia |]. unfold ordered. simpl.
  rewrite invoked_app. simpl. rewrite app_nil_r. tauto.
Qed.

Lemma advances_enter i (st : DState W) :
  index st < i -> advances st (record (Invoke i) (set_index i st)).
Proof.
  intros Hlt. split; [simpl; lia |]. unfold ordered. simpl.
  rewrite invoked_app. simpl. intros [Hnd Hle]. split.
  - apply NoDup_app. repeat split; [exact Hnd | | apply NoDup_singleton].
    intros j Hj Hj'. apply list_elem_of_singleton in Hj'. subst j.
    specialize (Hle i Hj). lia.
  - intros j Hj. apply elem_of_app in Hj as [Hj | Hj].
    + specialize (Hle j Hj). lia.
    + apply list_elem_of_singleton in Hj. lia.
Qed.

Lemma advances_errorHandler e (st : DState W) :
  advances st (snd (callErrorHandler options req e st)).
Proof.
  unfold callErrorHandler. destruct (errorHandler options) as [eh |].
  - destruct (eh e req (world st)) as [o w]. apply advances_set_world.
  - apply advances_console.
Qed.

Lemma runStage_advances (next : DState W -> option (Outcome * DState W)) s :
  (forall st o st', next st = Some (o, st') -> advances st st') ->
  forall st o st', runStage next s st = Some (o, st') -> advances st st'.
Proof.
  intros Hnext. induction s as [o0 w | w k IH]; intros st o st' Hrun; simpl in Hrun.
  - inversion Hrun; subst. apply advances_set_world.
  - destruct (next (set_world w st)) as [[o1 st1] |] eqn:Hn; [| discriminate].
    eapply advances_trans; [apply advances_set_world |].
    eapply advances_trans; [eapply Hnext, Hn |]. eapply IH, Hrun.
Qed.

Lemma catch_advances (retry : DState W -> option (Outcome * DState W)) r o st' :
  (forall st o1 st1, retry st = Some (o1, st1) -> advances st st1) ->
  catch options req retry r = Some (o, st') ->
  exists o0 st0, r = Some (o0, st0) /\ advances st0 st'.
Proof.
  intros Hretry Hc. destruct r as [[o0 st0] |]; [| discriminate].
  exists o0, st0. split; [reflexivity |]. unfold catch in Hc.
  destruct o0 as [r0 | e].
  - inversion Hc; subst. apply advances_refl.
  - destruct (continues options).
    + eapply advances_trans; [apply advances_console | eapply Hretry, Hc].
    + inversion Hc as [Heq]. pose proof (advances_errorHandler e st0) as Ha.
      rewrite Heq in Ha. exact Ha.
Qed.

Lemma dispatch_advances fuel :
  forall i st o st', dispatch fuel i st = Some (o, st') ->
    advances st st' /\ i <= index st'.
Proof.
  induction fuel as [| fuel IH]; intros i st o st' Hd; [discriminate |].
  simpl in Hd. destruct (Z.leb_spec i (index st)) as [Hle | Hgt].
  { inversion Hd; subst. split; [apply advances_refl | exact Hle]. }
  assert (Hretry : forall st0 o1 st1,
             dispatch fuel (i + 1) st0 = Some (o1, st1) -> advances st0 st1)
    by (intros st0 o1 st1 H; apply (IH _ _ _ _ H)).
  assert (Hgo : forall st0, advances (record (Invoke i) (set_index i st)) st0 ->
             advances st st0 /\ i <= index st0).
  { intros st0 Ha. split.
    - eapply advances_trans; [apply advances_enter, Hgt | exact Ha].
    - destruct Ha as [Ha _]. simpl in Ha. exact Ha. }
  assert (Hgo' : forall st0, advances (set_index i st) st0 ->
             advances st st0 /\ i <= index st0).
  { intros st0 [Ha Hb]. split; [| simpl in Ha; exact Ha].
    split; [simpl in Ha; lia |]. intros Ho. apply Hb.
    destruct Ho as [Hnd Hj]. split; [exact Hnd |].
    intros j Hin. specialize (Hj j Hin). simpl. lia. }
  destruct (Z.ltb_spec i len) as [Hlt | Hge].
  - apply catch_advances in Hd as (o0 & st0 & Hr & Ha); [| exact Hretry].
    destruct (middlewares !! Z.to_nat i) as [fn |].
    + apply runStage_advances in Hr; [| exact Hretry].
      apply Hgo. eapply advances_trans; eassumption.
    + inversion Hr; subst. apply Hgo'. exact Ha.
  - destruct (Z.eqb_spec i len) as [Heq | Hne].
    + apply catch_advances in Hd as (o0 & st0 & Hr & Ha); [| exact Hretry].
      destruct (handler req _) as [o1 w1]. inversion Hr; subst.
      apply Hgo. eapply advances_trans; [apply advances_set_world | exact Ha].
    + inversion Hd; subst. apply Hgo'. apply advances_refl.
Qed.

Lemma ordered_initial (w : W) : ordered (initial w).
Proof.
  split; simpl; [apply NoDup_nil_2 |]. intros j Hj. apply elem_of_nil in Hj. contradiction.
Qed.

Lemma no_stage_twice w o st :
  composedHandler middlewares handler options req w = Some (o, st) ->
  NoDup (invoked (log st)).
Proof.
  intros H. apply dispatch_advances in H as [[_ Ho] _].
  apply Ho, ordered_initial.
Qed.

(** *** Chains of pass-through stages *)

(** Replace the stage looked up in the goal by the one known. *)
Ltac use_stage fn H :=
  match goal with
  | |- context [match ?x with Some _ => _ | None => _ end] =>
      let E := fresh "E" in
      assert (E : x = Some fn) by exact H; rewrite E; clear E
  end.

Lemma stage_lookup (P : Middleware W -> Prop) i :
  Forall P middlewares -> 0 <= i < len ->
  exists fn, middlewares !! Z.to_nat i = Some fn /\ P fn.
Proof.
  intros Hall Hi.
  destruct (lookup_lt_is_Some_2 middlewares (Z.to_nat i)) as [fn Hfn]; [lia |].
  exists fn. split; [exact Hfn |].
  rewrite Forall_lookup in Hall. eapply Hall, Hfn.
Qed.

Lemma dispatch_pass_through w r w' :
  Forall pass_through middlewares ->
  handler req w = (Fulfilled r, w') ->
  forall fuel i st,
    0 <= i <= len -> index st < i -> enough fuel i -> world st = w ->
    dispatch fuel i st =
      Some (Fulfilled r,
            {| index := len; world := w';
               log := log st ++ map Invoke (seqZ i (len + 1 - i)) |}).
Proof.
  intros Hall Hh. induction fuel as [| fuel IH]; intros i st Hi Hidx [H1 H2] Hw; [lia |].
  rewrite dispatch_S. destruct (Z.leb_spec i (index st)); [lia |].
  destruct (Z.ltb_spec i len) as [Hlt | Hge].
  - destruct (stage_lookup pass_through i Hall) as (fn & Hlk & Hfn); [lia |].
    use_stage fn Hlk.
    destruct (Hfn req (world st)) as (k & -> & Hk). cbn [runStage].
    rewrite IH; [| lia | simpl; lia | unfold Compose.enough; lia | simpl; exact Hw].
    rewrite Hk. cbn [runStage catch set_world record set_index index world log].
    do 3 f_equal.
    rewrite (seqZ_cons i) by lia. cbn [map]. rewrite <- app_assoc. cbn [app].
    replace (Z.succ i) with (i + 1) by lia.
    replace (Z.pred (len + 1 - i)) with (len + 1 - (i + 1)) by lia.
    reflexivity.
  - destruct (Z.eqb_spec i len) as [Heq | Hne]; [| lia].
    rewrite Hw, Hh. cbn [catch].
    replace (len + 1 - i) with 1 by lia. subst i. reflexivity.
Qed.

(** *** A stage that invokes its continuation twice *)

(** The second call is stopped by the cursor, the error comes back out
    of the stage and reaches the [catch] block of its own frame. *)
Lemma dispatch_invokes_twice fuel i st m :
  0 <= i < len -> middlewares !! Z.to_nat i = Some m -> invokes_twice m ->
  index st < i -> enough (S fuel) i ->
  exists st1, i + 1 <= index st1 /\
    dispatch (S fuel) i st =
      catch options req (dispatch fuel (i + 1)) (Some (Rejected doubleInvocation, st1)).
Proof.
  intros Hi Hlk Hm Hidx [H1 H2].
  rewrite dispatch_S. destruct (Z.leb_spec i (index st)); [lia |].
  destruct (Z.ltb_spec i len); [| lia]. use_stage m Hlk.
  destruct (Hm req (world st)) as (w1 & k1 & -> & Hk1). cbn [runStage].
  destruct fuel as [| fuel]; [lia |].
  match goal with
  | |- context [dispatch (S fuel) (i + 1) ?s] =>
      destruct (dispatch_total (S fuel) (i + 1) s) as [[o st2] Hd];
        [unfold Compose.enough; lia |]
  end.
  rewrite Hd. apply dispatch_advances in Hd as [_ Hge].
  destruct (Hk1 o (world st2)) as (w2 & k2 & -> & Hk2). cbn [runStage].
  rewrite dispatch_guard by (simpl; lia).
  destruct (Hk2 (world (set_world w2 st2))) as (w4 & ->). cbn [runStage].
  exists (set_world w4 (set_world w2 st2)). split; [simpl; lia | reflexivity].
Qed.

Section Upstream.
Variable i : Z.
Variable m : Middleware W.
Hypothesis Hi : 0 <= i < len.
Hypothesis Hlk : middlewares !! Z.to_nat i = Some m.
Hypothesis Hm : invokes_twice m.
Hypothesis Hpre : forall j fn, 0 <= j < i ->
  middlewares !! Z.to_nat j = Some fn -> pass_through fn.

Lemma upstream_stage j : 0 <= j < i -> exists fn,
  middlewares !! Z.to_nat j = Some fn /\ pass_through fn.
Proof.
  intros Hj.
  destruct (lookup_lt_is_Some_2 middlewares (Z.to_nat j)) as [fn Hfn]; [lia |].
  exists fn. split; [exact Hfn | eapply Hpre; eassumption].
Qed.

Lemma twice_propagates fuel :
  continues options = true ->
  forall j st, 0 <= j <= i -> index st < j -> enough fuel j ->
    exists st', dispatch fuel j st = Some (Rejected doubleInvocation, st').
Proof.
  intros Hc. induction fuel as [| fuel IH]; intros j st Hj Hidx [H1 H2]; [lia |].
  destruct (Z.eq_dec j i) as [-> | Hne].
  - destruct (dispatch_invokes_twice fuel i st m Hi Hlk Hm Hidx) as (st1 & Hge & ->);
      [split; assumption |].
    unfold catch. rewrite Hc.
    destruct fuel as [| fuel]; [lia |].
    rewrite dispatch_guard by (simpl; lia). eauto.
  - rewrite dispatch_S. destruct (Z.leb_spec j (index st)); [lia |].
    destruct (Z.ltb_spec j len); [| lia].
    destruct (upstream_stage j) as (fn & Hfn & Hpt); [lia |]. use_stage fn Hfn.
    destruct (Hpt req (world st)) as (k & -> & Hk). cbn [runStage].
    match goal with
    | |- context [dispatch fuel (j + 1) ?s] =>
        destruct (IH (j + 1) s) as [st' Hd];
          [lia | simpl; lia | unfold Compose.enough; lia |]
    end.
    rewrite Hd, Hk. cbn [runStage]. unfold catch. rewrite Hc.
    apply dispatch_advances in Hd as [_ Hge].
    destruct fuel as [| fuel]; [lia |].
    rewrite dispatch_guard by (simpl; lia). eauto.
Qed.

Lemma twice_handled fuel r :
  continues options = false ->
  (forall st1, fst (callErrorHandler options req doubleInvocation st1) = Fulfilled r) ->
  forall j st, 0 <= j <= i -> index st < j -> enough fuel j ->
    exists st', dispatch fuel j st = Some (Fulfilled r, st').
Proof.
  intros Hc Heh. induction fuel as [| fuel IH]; intros j st Hj Hidx [H1 H2]; [lia |].
  destruct (Z.eq_dec j i) as [-> | Hne].
  - destruct (dispatch_invokes_twice fuel i st m Hi Hlk Hm Hidx) as (st1 & Hge & ->);
      [split; assumption |].
    unfold catch. rewrite Hc. specialize (Heh st1).
    destruct (callErrorHandler options req doubleInvocation st1) as [o st2].
    simpl in Heh. subst o. eauto.
  - rewrite dispatch_S. destruct (Z.leb_spec j (index st)); [lia |].
    destruct (Z.ltb_spec j len); [| lia].
    destruct (upstream_stage j) as (fn & Hfn & Hpt); [lia |]. use_stage fn Hfn.
    destruct (Hpt req (world st)) as (k & -> & Hk). cbn [runStage].
    match goal with
    | |- context [dispatch fuel (j + 1) ?s] =>
        destruct (IH (j + 1) s) as [st' Hd];
          [lia | simpl; lia | unfold Compose.enough; lia |]
    end.
    rewrite Hd, Hk. cbn [runStage catch]. eauto.
Qed.
End Upstream.

(** *** When the caller is sure to receive a response *)

Lemma handled_at_entry w :
  continues options = false ->
  (forall e st, is_fulfilled (fst (callErrorHandler options req e st)) = true) ->
  exists r st, composedHandler middlewares handler options req w = Some (Fulfilled r, st).
Proof.
  intros Hc Heh. unfold composedHandler.
  destruct (dispatch_total (depth middlewares) 0 (initial w)) as [[o st] Hd];
    [unfold Compose.enough, depth; lia |].
  destruct o as [r | e]; [eauto |]. exfalso.
  unfold depth in Hd. rewrite dispatch_S in Hd. cbn [index initial] in Hd.
  assert (Hcatch : forall retry res,
             catch options req retry res <> Some (Rejected e, st)).
  { intros retry [[[r0 | e0] st0] |]; unfold catch; try discriminate.
    rewrite Hc. specialize (Heh e0 st0).
    destruct (callErrorHandler options req e0 st0) as [[r1 | e1] st1]; simpl in Heh;
      [discriminate | discriminate]. }
  destruct (Z.leb_spec 0 (-1)); [lia |].
  destruct (Z.ltb_spec 0 len).
  - eapply Hcatch, Hd.
  - destruct (Z.eqb_spec 0 len); [eapply Hcatch, Hd | lia].
Qed.

Lemma skipped_to_response :
  continues options = true ->
  Forall raises_only_before_next middlewares ->
  (forall w0, is_fulfilled (fst (handler req w0)) = true) ->
  forall fuel j st, 0 <= j <= len -> index st < j -> enough fuel j ->
    exists r st', dispatch fuel j st = Some (Fulfilled r, st').
Proof.
  intros Hc Hall Hh. induction fuel as [| fuel IH]; intros j st Hj Hidx [H1 H2]; [lia |].
  rewrite dispatch_S. destruct (Z.leb_spec j (index st)); [lia |].
  destruct (Z.ltb_spec j len) as [Hlt | Hge].
  - destruct (stage_lookup raises_only_before_next j Hall) as (fn & Hfn & Hwb); [lia |].
    use_stage fn Hfn.
    destruct (Hwb req (world st))
      as [(e & w1 & ->) | [(r & w1 & ->) | (w1 & k & -> & Hk)]]; cbn [runStage].
    + unfold catch. rewrite Hc. apply IH; [lia | simpl; lia | unfold Compose.enough; lia].
    + cbn [catch]. eauto.
    + match goal with
      | |- context [dispatch fuel (j + 1) ?s] =>
          destruct (IH (j + 1) s) as (r & st' & Hd);
            [lia | simpl; lia | unfold Compose.enough; lia |]
      end.
      rewrite Hd. destruct (Hk r (world st')) as (r' & w2 & ->).
      cbn [runStage catch]. eauto.
  - destruct (Z.eqb_spec j len) as [Heq | Hne]; [| lia].
    specialize (Hh (world st)). destruct (handler req (world st)) as [[r | e] w1];
      simpl in Hh; [| discriminate].
    cbn [catch]. eauto.
Qed.

(** *** A stage that answers without invoking its continuation *)

Lemma dispatch_short_circuit fuel i st m r w' :
  0 <= i -> middlewares !! Z.to_nat i = Some m -> index st < i ->
  m req (world st) = Done (Fulfilled r) w' ->
  dispatch (S fuel) i st =
    Some (Fulfilled r, {| index := i; world := w'; log := log st ++ [Invoke i] |}).
Proof.
  intros Hi Hlk Hidx Hm.
  assert (Hnat : (Z.to_nat i < length middlewares)%nat)
    by (eapply lookup_lt_Some; exact Hlk).
  assert (Hlt : i < len) by lia.
  rewrite dispatch_S. destruct (Z.leb_spec i (index st)); [lia |].
  destruct (Z.ltb_spec i len); [| lia]. use_stage m Hlk.
  rewrite Hm. reflexivity.
Qed.
End Facts.

Lemma passThrough_pass_through {W} : pass_through (@passThrough W).
Proof. intros req w. eexists. split; reflexivity. Qed.

Lemma callsTwice_invokes_twice {W} : invokes_twice (@callsTwice W).
Proof.
  intros req w. do 2 eexists. split; [reflexivity |].
  intros o w'. do 2 eexists. split; [reflexivity |].
  intros w3. eexists. reflexivity.
Qed.

Lemma raisesFirst_raises_only_before_next {W} e : raises_only_before_next (@raisesFirst W e).
Proof. intros req w. left. do 2 eexists. reflexivity. Qed.

Lemma passThrough_raises_only_before_next {W} : raises_only_before_next (@passThrough W).
Proof.
  intros req w. right. right. do 2 eexists. split; [reflexivity |].
  intros r w'. do 2 eexists. reflexivity.
Qed.

Lemma default_handler_answers {W} (options : MiddlewareOptions W) req :
  errorHandler options = None ->
  forall e st, callErrorHandler options req e st =
    (Fulfilled internalServerError, record (ConsoleError "Unhandled middleware error:" e) st).
Proof. intros H e st. unfold callErrorHandler. rewrite H. reflexivity. Qed.

(** C1. A chain of pass-through stages, the empty chain included, returns
    exactly what the terminal handler returns for the request, under any
    options; every stage and the handler are entered once, in order. *)
Theorem compose_pass_through {W} (middlewares : list (Middleware W))
    (handler : Handler W) (options : MiddlewareOptions W) (req : Request)
    (w : W) (r : Response) (w' : W) :
  Forall pass_through middlewares ->
  handler req w = (Fulfilled r, w') ->
  compose middlewares handler options req w =
    Some (Fulfilled r,
          {| index := Z.of_nat (length middlewares); world := w';
             log := map Invoke (seqZ 0 (Z.of_nat (length middlewares) + 1)) |}).
Proof.
  intros Hall Hh. unfold compose, composedHandler.
  rewrite (dispatch_pass_through middlewares handler options req w r w' Hall Hh);
    [| lia | simpl; lia | unfold enough, depth; lia | reflexivity].
  cbn [initial log app]. rewrite Z.sub_0_r. reflexivity.
Qed.

Lemma compose_pass_through_witness :
  Forall pass_through [@passThrough unit; passThrough] /\
  Samples.answers Samples.hello Samples.request tt = (Fulfilled Samples.hello, tt) /\
  compose [passThrough; passThrough] (Samples.answers Samples.hello) noOptions Samples.request tt =
    Some (Fulfilled Samples.hello,
          {| index := 2; world := tt; log := [Invoke 0; Invoke 1; Invoke 2] |}) /\
  compose [] (Samples.answers Samples.hello) (Samples.onError true) Samples.request tt =
    Some (Fulfilled Samples.hello, {| index := 0; world := tt; log := [Invoke 0] |}).
Proof.
  assert (H2 : Forall pass_through [@passThrough unit; passThrough])
    by (repeat constructor; apply passThrough_pass_through).
  split; [exact H2 |]. split; [reflexivity |]. split.
  - exact (compose_pass_through [passThrough; passThrough] (Samples.answers Samples.hello)
             noOptions Samples.request tt Samples.hello tt H2 eq_refl).
  - exact (compose_pass_through [] (Samples.answers Samples.hello)
             (Samples.onError true) Samples.request tt Samples.hello tt (Forall_nil_2 _) eq_refl).
Defined.







End ComposeFacts.

(** * Properties of the headers object *)

Module HeaderFacts.

Lemma same_name_sym a b : same_name a b = same_name b a.
Proof. unfold same_name. apply String.eqb_sym. Qed.

Lemma same_name_trans a b c :
  same_name a b = true -> same_name b c = true -> same_name a c = true.
Proof.
  unfold same_name. rewrite !String.eqb_eq. congruence.
Qed.

Lemma header_values_cons name n v h :
  header_values ((n, v) :: h) name =
    if same_name name n then v :: header_values h name else header_values h name.
Proof. reflexivity. Qed.

Lemma header_values_set_same name value h :
  forall found,
    header_values (headers_set_go found name value h) name =
      if found then [] else [value].
Proof.
  induction h as [| [n v] h IH]; intros found; cbn [headers_set_go].
  - destruct found; [reflexivity |]. cbn [header_values].
    unfold same_name. rewrite String.eqb_refl. reflexivity.
  - destruct (same_name name n) eqn:E.
    + destruct found; [apply IH |].
      cbn [header_values]. rewrite E, IH. reflexivity.
    + cbn [header_values]. rewrite E. apply IH.
Qed.

Lemma header_values_set_other name other value h :
  same_name other name = false ->
  forall found,
    header_values (headers_set_go found name value h) other = header_values h other.
Proof.
  intros Hne. induction h as [| [n v] h IH]; intros found; cbn [headers_set_go].
  - destruct found; [reflexivity |]. cbn [header_values]. rewrite Hne. reflexivity.
  - destruct (same_name name n) eqn:E.
    + assert (Ho : same_name other n = false).
      { destruct (same_name other n) eqn:E'; [| reflexivity].
        rewrite <- Hne. symmetry. apply (same_name_trans other n name E').
        rewrite same_name_sym. exact E. }
      destruct found; cbn [header_values]; rewrite Ho; apply IH.
    + cbn [header_values]. rewrite IH. reflexivity.
Qed.

Lemma header_with_header_same r name value :
  header (with_header r name value) name = Some value.
Proof.
  unfold header, with_header, headers_get, headers_set. simpl.
  rewrite header_values_set_same. reflexivity.
Qed.

Lemma header_with_header_other r name other value :
  same_name other name = false ->
  header (with_header r name value) other = header r other.
Proof.
  intros Hne. unfold header, with_header, headers_get, headers_set. simpl.
  rewrite header_values_set_other by exact Hne. reflexivity.
Qed.

Lemma guard_with_header r name value : guard (with_header r name value) = guard r.
Proof. reflexivity. Qed.

Lemma set_header_writable r name value :
  guard r = None -> set_header r name value = inl (with_header r name value).
Proof. intros H. unfold set_header. rewrite H. reflexivity. Qed.

Lemma set_header_immutable r name value message :
  guard r = Some message -> set_header r name value = inr (ErrorObj message).
Proof. intros H. unfold set_header. rewrite H. reflexivity. Qed.
End HeaderFacts.

(** * Properties of the rate limiter *)

Module RateLimitFacts.
Import RateLimit.

Lemma ceil_div_bounds x d : 0 < d -> d * (ceil_div x d - 1) < x <= d * ceil_div x d.
Proof.
  intros Hd. unfold ceil_div.
  pose proof (Z.div_mod (- x) d) as Hdm.
  pose proof (Z.mod_pos_bound (- x) d Hd) as Hm.
  split; nia.
Qed.

Lemma ceil_div_pos x d : 0 < d -> 0 < x -> 0 < ceil_div x d.
Proof.
  intros Hd Hx. pose proof (ceil_div_bounds x d Hd) as [_ H]. nia.
Qed.

Section Facts.
Variable hostname : string -> string.
Variable options : RateLimitOptions.

Local Abbreviation keyOf := (keyOf hostname options).
Local Abbreviation rateLimit := (rateLimit hostname options).
Local Abbreviation afterNext := (afterNext options).
Local Abbreviation request := (request hostname options).
Local Abbreviation requests := (requests hostname options).

Lemma lookup_store key e w : clients (store key e w) !! key = Some e.
Proof. unfold store, set_clients. simpl. apply lookup_insert_eq. Qed.

(** *** The three ways through the code before [next()] *)

Lemma rateLimit_opens req w :
  (clients w !! keyOf req = None \/
   exists c, clients w !! keyOf req = Some c /\ resetTime c < clock w) ->
  rateLimit req w =
    Await (store (keyOf req) (opened options (clock w)) w) (afterNext (keyOf req)).
Proof.
  intros [Hnone | (c & Hc & Hlt)]; unfold RateLimit.rateLimit.
  - rewrite Hnone. reflexivity.
  - rewrite Hc. rewrite Z.gtb_ltb. destruct (Z.ltb_spec (resetTime c) (clock w)); [| lia].
    reflexivity.
Qed.

Lemma rateLimit_counts req w c :
  clients w !! keyOf req = Some c ->
  clock w <= resetTime c ->
  count c + 1 <= maxRequests options ->
  rateLimit req w = Await (store (keyOf req) (bumped c) w) (afterNext (keyOf req)).
Proof.
  intros Hc Hle Hcount. unfold RateLimit.rateLimit. rewrite Hc.
  rewrite !Z.gtb_ltb. destruct (Z.ltb_spec (resetTime c) (clock w)); [lia |].
  cbn [count]. destruct (Z.ltb_spec (maxRequests options) (count c + 1)); [lia |].
  reflexivity.
Qed.

Lemma rateLimit_rejects req w c :
  clients w !! keyOf req = Some c ->
  clock w <= resetTime c ->
  maxRequests options < count c + 1 ->
  rateLimit req w =
    Done (Fulfilled (tooManyRequests options (bumped c) (clock w)))
         (store (keyOf req) (bumped c) w).
Proof.
  intros Hc Hle Hcount. unfold RateLimit.rateLimit. rewrite Hc.
  rewrite !Z.gtb_ltb. destruct (Z.ltb_spec (resetTime c) (clock w)); [lia |].
  cbn [count]. destruct (Z.ltb_spec (maxRequests options) (count c + 1)); [| lia].
  reflexivity.
Qed.

(** *** The code after [next()] *)

Lemma finish_returned c r (w : World) :
  match writeLimits options c r with
  | inl annotated => Done (Fulfilled annotated) w
  | inr e => Done (Rejected e) w
  end = Done (returned options c r) w.
Proof.
  unfold writeLimits, returned, set_header. destruct (guard r) eqn:Hg; [reflexivity |].
  cbv beta iota. rewrite HeaderFacts.guard_with_header, Hg.
  cbv beta iota. rewrite !HeaderFacts.guard_with_header, Hg. reflexivity.
Qed.

Lemma returned_writable c r :
  guard r = None -> returned options c r = Fulfilled (annotate options c r).
Proof. intros H. unfold returned. rewrite H. reflexivity. Qed.

Lemma returned_immutable c r message :
  guard r = Some message -> returned options c r = Rejected (ErrorObj message).
Proof. intros H. unfold returned. rewrite H. reflexivity. Qed.

Lemma afterNext_counted key r w c :
  skips options = false \/ 400 <= status r ->
  clients w !! key = Some c ->
  afterNext key (Fulfilled r) w = Done (returned options c r) w.
Proof.
  intros Hskip Hc. unfold RateLimit.afterNext.
  assert (Hcond : skips options && (status r <? 400) = false).
  { destruct Hskip as [-> | Hst]; [reflexivity |].
    destruct (Z.ltb_spec (status r) 400); [lia |]. apply andb_false_r. }
  rewrite Hcond, Hc. apply finish_returned.
Qed.

Lemma afterNext_uncounted key r w c :
  skips options = true ->
  status r < 400 ->
  clients w !! key = Some c ->
  afterNext key (Fulfilled r) w =
    Done (returned options (uncounted c) r) (store key (uncounted c) w).
Proof.
  intros Hskip Hst Hc. unfold RateLimit.afterNext.
  rewrite Hskip. destruct (Z.ltb_spec (status r) 400); [| lia].
  cbn [andb]. rewrite Hc. fold (uncounted c). fold (store key (uncounted c) w).
  rewrite lookup_store. apply finish_returned.
Qed.

Lemma afterNext_settles key o w :
  exists o' w', afterNext key o w = Done o' w'.
Proof.
  unfold RateLimit.afterNext. destruct o as [r | e]; [| eauto].
  destruct (skips options && (status r <? 400)).
  - destruct (clients w !! key) as [c |] eqn:Hc.
    + fold (uncounted c). fold (store key (uncounted c) w). rewrite lookup_store.
      rewrite finish_returned. eauto.
    + rewrite Hc. eauto.
  - destruct (clients w !! key) as [c |]; [rewrite finish_returned |]; eauto.
Qed.

Lemma afterNext_returns key r w :
  guard r = None ->
  exists a w', afterNext key (Fulfilled r) w = Done (Fulfilled a) w' /\
               status a = status r /\ body a = body r.
Proof.
  intros Hg. unfold RateLimit.afterNext.
  destruct (skips options && (status r <? 400)).
  - destruct (clients w !! key) as [c |] eqn:Hc.
    + fold (uncounted c). fold (store key (uncounted c) w). rewrite lookup_store.
      rewrite finish_returned, (returned_writable _ _ Hg).
      eexists _, _. split; [reflexivity | split; reflexivity].
    + rewrite Hc. eexists _, _. split; [reflexivity | split; reflexivity].
  - destruct (clients w !! key) as [c |].
    + rewrite finish_returned, (returned_writable _ _ Hg).
      eexists _, _. split; [reflexivity | split; reflexivity].
    + eexists _, _. split; [reflexivity | split; reflexivity].
Qed.

(** *** Whole requests *)

Lemma request_counted req now r w e :
  skips options = false \/ 400 <= status r ->
  rateLimit req (at_time now w) =
    Await (store (keyOf req) e (at_time now w)) (afterNext (keyOf req)) ->
  request req now r w =
    (returned options e r, store (keyOf req) e (at_time now w), 1%nat).
Proof.
  intros Hskip Hpre. unfold RateLimit.request, serve. rewrite Hpre. cbn [runWith].
  rewrite (afterNext_counted _ _ _ e Hskip (lookup_store _ _ _)). reflexivity.
Qed.

Lemma request_uncounted req now r w e :
  skips options = true ->
  status r < 400 ->
  rateLimit req (at_time now w) =
    Await (store (keyOf req) e (at_time now w)) (afterNext (keyOf req)) ->
  request req now r w =
    (returned options (uncounted e) r,
     store (keyOf req) (uncounted e) (store (keyOf req) e (at_time now w)), 1%nat).
Proof.
  intros Hskip Hst Hpre. unfold RateLimit.request, serve. rewrite Hpre. cbn [runWith].
  rewrite (afterNext_uncounted _ _ _ e Hskip Hst (lookup_store _ _ _)). reflexivity.
Qed.

(** A request that went through with the entry [e] to show came back
    as [allowed] and [answered] say. *)
Lemma returned_allowed call e n :
  n = 1%nat -> allowed call (returned options e (snd call), n).
Proof.
  intros ->. split; [reflexivity |]. unfold returned. simpl.
  destruct (guard (snd call)); [reflexivity |].
  eexists. split; [reflexivity |]. split; reflexivity.
Qed.

Lemma request_rejected req now r w c :
  clients w !! keyOf req = Some c ->
  now <= resetTime c ->
  maxRequests options < count c + 1 ->
  request req now r w =
    (Fulfilled (tooManyRequests options (bumped c) now),
     store (keyOf req) (bumped c) (at_time now w), 0%nat).
Proof.
  intros Hc Hle Hcount. unfold RateLimit.request, serve.
  rewrite (rateLimit_rejects req (at_time now w) c Hc Hle Hcount). reflexivity.
Qed.

(** *** The headers set on the way back *)

Lemma annotate_remaining e r :
  header (annotate options e r) "X-RateLimit-Remaining" =
    Some (pretty (Z.max 0 (maxRequests options - count e))).
Proof.
  unfold annotate.
  rewrite HeaderFacts.header_with_header_other by reflexivity.
  apply HeaderFacts.header_with_header_same.
Qed.

Lemma annotate_limit e r :
  header (annotate options e r) "X-RateLimit-Limit" = Some (pretty (maxRequests options)).
Proof.
  unfold annotate.
  rewrite !HeaderFacts.header_with_header_other by reflexivity.
  apply HeaderFacts.header_with_header_same.
Qed.

Lemma annotate_reset e r :
  header (annotate options e r) "X-RateLimit-Reset" = Some (pretty (resetTime e)).
Proof. unfold annotate. apply HeaderFacts.header_with_header_same. Qed.
End Facts.

Lemma annotate_status options e r : status (annotate options e r) = status r.
Proof. reflexivity. Qed.

Lemma annotate_body options e r : body (annotate options e r) = body r.
Proof. reflexivity. Qed.

Lemma returned_answered options e r :
  answered r (pretty (Z.max 0 (maxRequests options - count e))) (returned options e r).
Proof.
  unfold answered, returned. destruct (guard r); [reflexivity |].
  eexists. split; [reflexivity |]. split; [apply annotate_remaining |].
  split; reflexivity.
Qed.




(** C5, as the code has it.  When the entry of the key is absent, or
    present with a reset time strictly before now, the entry is replaced
    by count 1 and reset time now + windowMs (other keys and the clock
    are untouched) and the request is allowed: the continuation runs
    once whatever it answers, and a response whose headers can be
    written comes back with its status and body. *)
Theorem window_opens (hostname : string -> string) (options : RateLimitOptions)
    (req : Request) (w : World) :
  let key := keyOf hostname options req in
  (clients w !! key = None \/
   exists c, clients w !! key = Some c /\ resetTime c < clock w) ->
  exists w1,
    rateLimit hostname options req w = Await w1 (afterNext options key) /\
    clients w1 !! key = Some {| count := 1; resetTime := clock w + windowMs options |} /\
    (forall other, other <> key -> clients w1 !! other = clients w !! other) /\
    clock w1 = clock w /\
    (forall o, exists o' w2,
       runWith (fun w' => (o, w')) (rateLimit hostname options req w) 0%nat =
         (o', w2, 1%nat)) /\
    (forall response, guard response = None -> exists a w2,
       runWith (fun w' => (Fulfilled response, w')) (rateLimit hostname options req w) 0%nat =
         (Fulfilled a, w2, 1%nat) /\
       status a = status response /\ body a = body response).
Proof.
  intros key H. exists (store key (opened options (clock w)) w).
  assert (Hpre : rateLimit hostname options req w =
                 Await (store key (opened options (clock w)) w) (afterNext options key))
    by (apply rateLimit_opens; exact H).
  split; [exact Hpre |].
  split; [apply lookup_store |].
  split; [| split; [reflexivity |]].
  - intros other Hne. unfold store, set_clients. simpl.
    apply lookup_insert_ne. congruence.
  - split.
    + intros o. rewrite Hpre. cbn [runWith].
      destruct (afterNext_settles options key o (store key (opened options (clock w)) w))
        as (o' & w2 & ->).
      exists o', w2. reflexivity.
    + intros response Hg. rewrite Hpre. cbn [runWith].
      destruct (afterNext_returns options key response
                  (store key (opened options (clock w)) w) Hg)
        as (a & w2 & -> & Hs & Hb).
      exists a, w2. split; [reflexivity | split; assumption].
Qed.

Lemma window_opens_witness :
  let w := at_time 61001 Samples.exhausted in
  (exists c, clients w !! "example.test"%string = Some c /\ resetTime c < clock w) /\
  exists w1,
    rateLimit Samples.hostname Samples.limit3 Samples.request w =
      Await w1 (afterNext Samples.limit3 "example.test") /\
    clients w1 !! "example.test"%string = Some {| count := 1; resetTime := 121001 |} /\
    (forall other, other <> "example.test"%string -> clients w1 !! other = clients w !! other) /\
    clock w1 = 61001 /\
    (forall o, exists o' w2,
       runWith (fun w' => (o, w'))
         (rateLimit Samples.hostname Samples.limit3 Samples.request w) 0%nat =
         (o', w2, 1%nat)) /\
    (forall response, guard response = None -> exists a w2,
       runWith (fun w' => (Fulfilled response, w'))
         (rateLimit Samples.hostname Samples.limit3 Samples.request w) 0%nat =
         (Fulfilled a, w2, 1%nat) /\
       status a = status response /\ body a = body response).
Proof.
  assert (H : exists c, clients (at_time 61001 Samples.exhausted) !! "example.test"%string = Some c /\
                        resetTime c < clock (at_time 61001 Samples.exhausted))
    by (eexists; split; [reflexivity | reflexivity]).
  split; [exact H |].
  exact (window_opens Samples.hostname Samples.limit3 Samples.request
           (at_time 61001 Samples.exhausted) (or_intror H)).
Defined.

(** C5 as stated fails at equality: a request arriving exactly at the
    stored reset time is counted in the old window; here it exceeds the
    limit and is rejected, and the entry keeps its reset time. *)
Lemma window_boundary_counterexample :
  let w := at_time 61000 Samples.exhausted in
  let key := keyOf Samples.hostname Samples.limit3 Samples.request in
  clients w !! key = Some {| count := 3; resetTime := 61000 |} /\
  resetTime {| count := 3; resetTime := 61000 |} <= clock w /\
  exists w1,
    rateLimit Samples.hostname Samples.limit3 Samples.request w =
      Done (Fulfilled (tooManyRequests Samples.limit3 {| count := 4; resetTime := 61000 |} 61000)) w1 /\
    clients w1 !! key = Some {| count := 4; resetTime := 61000 |}.
Proof.
  cbv zeta. split; [reflexivity |]. split; [simpl; lia |].
  eexists. split.
  - apply (rateLimit_rejects Samples.hostname Samples.limit3 Samples.request
             (at_time 61000 Samples.exhausted) {| count := 3; resetTime := 61000 |});
      [reflexivity | simpl; lia | simpl; lia].
  - apply lookup_store.
Qed.

Section Skipping.
Variable hostname : string -> string.
Variable options : RateLimitOptions.
Variable key : string.
Hypothesis Hskip : skips options = true.
Hypothesis Hmax : 1 <= maxRequests options.

(** The entry of the key, if any, is below the limit. *)
Let below (w : World) : Prop :=
  forall c, clients w !! key = Some c -> count c < maxRequests options.

Lemma successful_request_allowed req now r w :
  keyOf hostname options req = key ->
  status r < 400 ->
  below w ->
  exists o w1,
    request hostname options req now r w = (o, w1, 1%nat) /\
    allowed (req, now, r) (o, 1%nat) /\ below w1.
Proof.
  intros Hkey Hst Hbelow. subst key.
  destruct (clients w !! keyOf hostname options req) as [c |] eqn:Hc.
  - destruct (Z.lt_ge_cases (resetTime c) now) as [Hexp | Hin].
    + eexists _, _. split; [| split].
      * apply request_uncounted; [exact Hskip | exact Hst |].
        apply rateLimit_opens. right. exists c. split; [exact Hc | exact Hexp].
      * apply (returned_allowed options (req, now, r)). reflexivity.
      * intros c' Hc'. rewrite lookup_store in Hc'. inversion Hc'; subst. simpl. lia.
    + eexists _, _. split; [| split].
      * apply request_uncounted; [exact Hskip | exact Hst |].
        apply rateLimit_counts; [exact Hc | exact Hin |].
        specialize (Hbelow c Hc). lia.
      * apply (returned_allowed options (req, now, r)). reflexivity.
      * intros c' Hc'. rewrite lookup_store in Hc'. inversion Hc'; subst. simpl.
        specialize (Hbelow c Hc). lia.
  - eexists _, _. split; [| split].
    * apply request_uncounted; [exact Hskip | exact Hst |].
      apply rateLimit_opens. left. exact Hc.
    * apply (returned_allowed options (req, now, r)). reflexivity.
    * intros c' Hc'. rewrite lookup_store in Hc'. inversion Hc'; subst. simpl. lia.
Qed.

Lemma successful_requests_allowed calls :
  Forall (fun call => keyOf hostname options (fst (fst call)) = key /\
                      status (snd call) < 400) calls ->
  forall w, below w ->
    Forall2 (allowed) calls (fst (requests hostname options calls w)).
Proof.
  induction calls as [| [[req now] r] calls IH]; intros Hall w Hbelow.
  - constructor.
  - apply Forall_cons in Hall as [[Hkey Hst] Hall]. simpl in Hkey, Hst.
    destruct (successful_request_allowed req now r w Hkey Hst Hbelow)
      as (o & w1 & Hreq & Hal & Hbelow1).
    cbn [RateLimit.requests]. rewrite Hreq.
    specialize (IH Hall w1 Hbelow1).
    destruct (requests hostname options calls w1) as [os w2]. simpl in IH |- *.
    constructor; [exact Hal | exact IH].
Qed.

(** The count of one request that is let through and succeeds: one
    more than stored (1 when the window opens) while the continuation
    runs, and that taken back by one, not below 0, afterwards. *)
Lemma successful_request_count req r w :
  keyOf hostname options req = key ->
  status r < 400 ->
  ~ RateLimitRuns.over_limit hostname options req w ->
  exists c1 w1 o w2,
    rateLimit hostname options req w = Await w1 (afterNext options key) /\
    clients w1 !! key = Some c1 /\
    ((count c1 = 1 /\
      (clients w !! key = None \/
       exists c, clients w !! key = Some c /\ resetTime c < clock w)) \/
     (exists c, clients w !! key = Some c /\ clock w <= resetTime c /\
                count c1 = count c + 1 /\ resetTime c1 = resetTime c)) /\
    afterNext options key (Fulfilled r) w1 = Done o w2 /\
    clients w2 !! key =
      Some {| count := Z.max 0 (count c1 - 1); resetTime := resetTime c1 |}.
Proof.
  intros Hkey Hst Hnot. subst key.
  assert (Hafter : forall c1 w1, clients w1 !! keyOf hostname options req = Some c1 ->
            exists o w2,
              afterNext options (keyOf hostname options req) (Fulfilled r) w1 = Done o w2 /\
              clients w2 !! keyOf hostname options req =
                Some {| count := Z.max 0 (count c1 - 1); resetTime := resetTime c1 |}).
  { intros c1 w1 Hc1. eexists _, _. split.
    - apply afterNext_uncounted; [exact Hskip | exact Hst | exact Hc1].
    - apply lookup_store. }
  destruct (clients w !! keyOf hostname options req) as [c |] eqn:Hc.
  - destruct (Z.lt_ge_cases (resetTime c) (clock w)) as [Hexp | Hin].
    + destruct (Hafter (opened options (clock w))
                  (store (keyOf hostname options req) (opened options (clock w)) w)
                  (lookup_store _ _ _)) as (o & w2 & Ha & Hw2).
      eexists _, _, o, w2. split.
      { apply rateLimit_opens. right. exists c. split; [exact Hc | exact Hexp]. }
      split; [apply lookup_store |]. split; [| split; assumption].
      left. split; [reflexivity |]. right. exists c. split; [reflexivity | exact Hexp].
    + assert (Hunder : count c + 1 <= maxRequests options).
      { destruct (Z.lt_ge_cases (maxRequests options) (count c + 1)) as [Hover |]; [| lia].
        exfalso. apply Hnot. exists c. repeat split; assumption. }
      destruct (Hafter (bumped c) (store (keyOf hostname options req) (bumped c) w)
                  (lookup_store _ _ _)) as (o & w2 & Ha & Hw2).
      eexists _, _, o, w2. split.
      { apply rateLimit_counts; [exact Hc | exact Hin | exact Hunder]. }
      split; [apply lookup_store |]. split; [| split; assumption].
      right. exists c. repeat split. exact Hin.
  - destruct (Hafter (opened options (clock w))
                (store (keyOf hostname options req) (opened options (clock w)) w)
                (lookup_store _ _ _)) as (o & w2 & Ha & Hw2).
    eexists _, _, o, w2. split.
    { apply rateLimit_opens. left. exact Hc. }
    split; [apply lookup_store |]. split; [| split; assumption].
    left. split; [reflexivity |]. left. reflexivity.
Qed.
End Skipping.

(** C8. With [skipSuccessfulRequests] set and a limit of at least one.
    A request that is let through is counted when the continuation runs
    (the stored count is one more than before, or 1 when it opens a
    window), and after a response with status below 400 the stored count
    is that taken back by one, not below 0.  So consecutive requests of
    one key that all succeed, one more than the limit allows, all reach
    the continuation and none is answered 429: each comes back with its
    own status and body, or with the error of the header write when its
    headers are immutable. *)
Theorem successful_requests_uncounted (hostname : string -> string)
    (options : RateLimitOptions) (key : string)
    (calls : list (Request * Z * Response)) (w0 : World) :
  skips options = true ->
  1 <= maxRequests options ->
  Forall (fun call => keyOf hostname options (fst (fst call)) = key /\
                      status (snd call) < 400) calls ->
  clients w0 !! key = None ->
  length calls = (Z.to_nat (maxRequests options) + 1)%nat ->
  (forall req r w,
     keyOf hostname options req = key -> status r < 400 ->
     ~ RateLimitRuns.over_limit hostname options req w ->
     exists c1 w1 o w2,
       rateLimit hostname options req w = Await w1 (afterNext options key) /\
       clients w1 !! key = Some c1 /\
       ((count c1 = 1 /\
         (clients w !! key = None \/
          exists c, clients w !! key = Some c /\ resetTime c < clock w)) \/
        (exists c, clients w !! key = Some c /\ clock w <= resetTime c /\
                   count c1 = count c + 1 /\ resetTime c1 = resetTime c)) /\
       afterNext options key (Fulfilled r) w1 = Done o w2 /\
       clients w2 !! key =
         Some {| count := Z.max 0 (count c1 - 1); resetTime := resetTime c1 |}) /\
  Forall2 allowed calls (fst (requests hostname options calls w0)) /\
  Forall (fun res => status_of (fst res) <> Some 429) (fst (requests hostname options calls w0)).
Proof.
  intros Hskip Hmax Hall Hnone Hlen.
  assert (Hallowed : Forall2 allowed calls (fst (requests hostname options calls w0))).
  { apply (successful_requests_allowed hostname options key Hskip Hmax calls Hall).
    intros c Hc. rewrite Hnone in Hc. discriminate. }
  split; [| split; [exact Hallowed |]].
  - intros req r w Hkey Hst Hnot.
    apply (successful_request_count hostname options key Hskip req r w Hkey Hst Hnot).
  - clear Hlen. revert Hall Hallowed.
    generalize (fst (requests hostname options calls w0)).
    intros results Hall H2. induction H2 as [| call res calls' results' Hal H2 IH].
    + constructor.
    + apply Forall_cons in Hall as [[_ Hst] Hall]. constructor; [| apply IH, Hall].
      destruct Hal as [_ Hal]. destruct (guard (snd call)).
      * rewrite Hal. discriminate.
      * destruct Hal as (a & Ha & Hsa & _). rewrite Ha. simpl. rewrite Hsa.
        intros Heq. inversion Heq. lia.
Qed.

Lemma successful_requests_uncounted_witness :
  let calls := [(Samples.request, 1000, Samples.hello); (Samples.request, 1001, Samples.redirect);
                (Samples.request, 1002, Samples.hello)] in
  Forall2 allowed calls
    (fst (requests Samples.hostname Samples.limit2skip calls Samples.freshLimiter)) /\
  Forall (fun res => status_of (fst res) <> Some 429)
    (fst (requests Samples.hostname Samples.limit2skip calls Samples.freshLimiter)).
Proof.
  refine (proj2 (successful_requests_uncounted Samples.hostname Samples.limit2skip
            "example.test"
            [(Samples.request, 1000, Samples.hello); (Samples.request, 1001, Samples.redirect);
             (Samples.request, 1002, Samples.hello)]
            Samples.freshLimiter eq_refl _ _ eq_refl eq_refl)).
  - simpl. lia.
  - repeat (constructor; [split; [reflexivity | simpl; lia] |]). constructor.
Defined.

End RateLimitFacts.

(** * Properties of the timeout guard *)

Module TimeoutFacts.
Import Timeout.

(** C6. A continuation that settles with a response before the deadline:
    that response comes back as it is and the timer is cleared.  A
    continuation still pending when the deadline fires: the answer is
    408 with the JSON content type and the body
    [{"error":"Request Timeout"}], whatever the continuation does later. *)
Theorem timeout_race (timeoutMs : Z) (req : Request) (t0 : Timer) :
  (forall response,
     serve (timeout timeoutMs) (settlesInTime (Fulfilled response)) req t0 =
       (Fulfilled response, Cleared, 1%nat)) /\
  (forall late,
     serve (timeout timeoutMs) (settlesTooLate late) req t0 =
       (Fulfilled
          {| status := 408;
             headers := [("Content-Type", "application/json")];
             body := Some ("{" +:+ dquote +:+ "error" +:+ dquote +:+ ":"
                           +:+ dquote +:+ "Request Timeout" +:+ dquote +:+ "}");
             guard := None |},
        Fired, 1%nat)).
Proof. split; intros; reflexivity. Qed.

Lemma isTimeout_false e : e <> timeoutError -> isTimeout e = false.
Proof.
  intros Hne. destruct e as [message | value]; [| reflexivity].
  simpl. apply String.eqb_neq. intros ->. apply Hne. reflexivity.
Qed.

(** C7, as the code has it.  An error raised by the continuation before
    the deadline comes out of the guard unchanged, with the timer
    cleared, unless it is an [Error] whose message is "Request timeout". *)
Theorem timeout_propagates (timeoutMs : Z) (req : Request) (t0 : Timer) (e : Exn) :
  e <> ErrorObj "Request timeout" ->
  serve (timeout timeoutMs) (settlesInTime (Rejected e)) req t0 = (Rejected e, Cleared, 1%nat).
Proof.
  intros Hne. unfold serve, timeout, settlesInTime. cbn [runWith race].
  rewrite (isTimeout_false e Hne). reflexivity.
Qed.

Lemma timeout_propagates_witness :
  Samples.boom <> ErrorObj "Request timeout" /\
  serve (timeout 30000) (settlesInTime (Rejected Samples.boom)) Samples.request Idle =
    (Rejected Samples.boom, Cleared, 1%nat).
Proof.
  assert (H : Samples.boom <> ErrorObj "Request timeout") by discriminate.
  split; [exact H |].
  exact (timeout_propagates 30000 Samples.request Idle Samples.boom H).
Defined.

(** C7 as stated fails: an error of the continuation whose message is
    "Request timeout", raised before the deadline, is answered with the
    408 response. *)
Lemma timeout_propagates_counterexample :
  serve (timeout 30000) (settlesInTime (Rejected (ErrorObj "Request timeout")))
    Samples.request Idle =
    (Fulfilled requestTimeout, Cleared, 1%nat) /\
  status requestTimeout = 408.
Proof. split; reflexivity. Qed.
End TimeoutFacts.

(** * Properties of the context store *)

Module ContextFacts.
Import Context.

Section Facts.
Context {V : Type}.
Implicit Types (w : World V) (req : ReqRef) (l : loc).

Lemma alloc_fresh (obj : gmap string V) w :
  heap w !! fst (alloc obj w) = None.
Proof.
  unfold alloc. simpl. apply not_elem_of_dom. apply is_fresh.
Qed.

Lemma getContext_attached req w l :
  contextOf w !! req = Some l -> getContext req w = (l, w).
Proof. intros H. unfold getContext. rewrite H. reflexivity. Qed.

Lemma getContext_detached req w :
  contextOf w !! req = None ->
  exists l w1, getContext req w = (l, w1) /\
    heap w !! l = None /\ heap w1 !! l = Some ∅ /\ contextOf w1 !! req = None.
Proof.
  intros H. unfold getContext. rewrite H.
  exists (fst (alloc (∅ : gmap string V) w)), (snd (alloc (∅ : gmap string V) w)).
  split; [reflexivity |]. split; [apply alloc_fresh |].
  split; [unfold alloc; simpl; apply lookup_insert_eq | exact H].
Qed.

Lemma read_write l key value w :
  is_Some (heap w !! l) -> read l key (write l key value w) = Some value.
Proof.
  intros [obj Hobj]. unfold read, write. simpl.
  rewrite lookup_alter_eq, Hobj. simpl. apply lookup_insert_eq.
Qed.

Lemma setContext_observed req key value w :
  (forall l, contextOf w !! req = Some l -> is_Some (heap w !! l)) ->
  exists l, contextOf (setContext req key value w) !! req = Some l /\
            getContext req (setContext req key value w) = (l, setContext req key value w) /\
            read l key (setContext req key value w) = Some value.
Proof.
  intros Hwf. unfold setContext.
  destruct (getContext req w) as [l w1] eqn:Hg. exists l.
  assert (Hatt : contextOf (attach req l (write l key value w1)) !! req = Some l)
    by (unfold attach; simpl; apply lookup_insert_eq).
  split; [exact Hatt |]. split.
  - apply getContext_attached. exact Hatt.
  - unfold attach, read. simpl.
    assert (Hl : is_Some (heap w1 !! l)).
    { unfold getContext in Hg. destruct (contextOf w !! req) as [l0 |] eqn:Hc.
      - inversion Hg; subst. apply Hwf. reflexivity.
      - unfold alloc in Hg. inversion Hg; subst. simpl.
        rewrite lookup_insert_eq. eauto. }
    apply (read_write l key value w1 Hl).
Qed.
Lemma withContext_attaches (initialContext : gmap string V) req w :
  exists l w1 k,
    withContext initialContext req w = Await w1 k /\
    getContext req w1 = (l, w1) /\ heap w1 !! l = Some initialContext /\
    forall o w', k o w' = Done o w'.
Proof.
  unfold withContext, alloc. eexists _, _, _. split; [reflexivity |].
  split; [apply getContext_attached; unfold attach; simpl; apply lookup_insert_eq |].
  split; [unfold attach; simpl; apply lookup_insert_eq | reflexivity].
Qed.
End Facts.

(** C9, as the code has it.  [getContext] returns the context attached
    to the request when there is one, and the world is unchanged; when
    there is none it returns a fresh empty context and attaches nothing.
    [setContext] fetches or creates, writes and attaches, so that
    [getContext] afterwards returns the attached context and the value is
    read at the key; from then on a write through that reference is seen
    by later [getContext] calls. *)
Theorem context_store {V : Type} (req : ReqRef) (key : string) (value : V) (w : World V) :
  (forall l, contextOf w !! req = Some l -> is_Some (heap w !! l)) ->
  (forall l, contextOf w !! req = Some l -> getContext req w = (l, w)) /\
  (contextOf w !! req = None ->
     exists l w1, getContext req w = (l, w1) /\
       heap w !! l = None /\ heap w1 !! l = Some ∅ /\ contextOf w1 !! req = None) /\
  (exists l, let w' := setContext req key value w in
     getContext req w' = (l, w') /\ read l key w' = Some value /\
     forall key2 value2,
       getContext req (write l key2 value2 w') = (l, write l key2 value2 w') /\
       read l key2 (write l key2 value2 w') = Some value2).
Proof.
  intros Hwf. split; [intros l; apply getContext_attached |].
  split; [apply getContext_detached |].
  destruct (setContext_observed req key value w Hwf) as (l & Hatt & Hg & Hr).
  exists l. cbv zeta. split; [exact Hg |]. split; [exact Hr |].
  intros key2 value2.
  split.
  - apply getContext_attached. exact Hatt.
  - apply read_write. unfold read in Hr.
    destruct (heap (setContext req key value w) !! l); [eauto | discriminate].
Qed.

Lemma context_store_witness :
  let w0 : World Z := {| heap := ∅; contextOf := ∅ |} in
  (forall l, contextOf w0 !! 0%nat = Some l -> is_Some (heap w0 !! l)) /\
  exists l, let w' := setContext 0%nat "userId" 123 w0 in
    getContext 0%nat w' = (l, w') /\ read l "userId" w' = Some 123 /\
    forall key2 value2,
      getContext 0%nat (write l key2 value2 w') = (l, write l key2 value2 w') /\
      read l key2 (write l key2 value2 w') = Some value2.
Proof.
  assert (H : forall l : loc,
             contextOf ({| heap := ∅; contextOf := ∅ |} : World Z) !! 0%nat = Some l ->
             is_Some (heap ({| heap := ∅; contextOf := ∅ |} : World Z) !! l))
    by (intros l Hl; discriminate Hl).
  split; [exact H |].
  exact (proj2 (proj2 (context_store 0%nat "userId" 123
                         ({| heap := ∅; contextOf := ∅ |} : World Z) H))).
Defined.

(** C9 as stated fails for [getContext] alone: on a request without a
    context, two calls return two different contexts, what is written
    through the first is not read through the second, and the request
    still has no context. *)
Lemma getContext_counterexample :
  let w0 : World Z := {| heap := ∅; contextOf := ∅ |} in
  let first := fst (getContext 0%nat w0) in
  let w1 := write first "userId" 123 (snd (getContext 0%nat w0)) in
  let second := fst (getContext 0%nat w1) in
  let w2 := snd (getContext 0%nat w1) in
  first <> second /\
  read first "userId" w2 = Some 123 /\
  read second "userId" w2 = None /\
  contextOf w2 !! 0%nat = None.
Proof. vm_compute. repeat split; discriminate. Qed.
End ContextFacts.

(** * Properties of the CORS middleware *)

Module CorsFacts.
Import Cors.

Section Facts.
Variable options : CorsOptions.

Lemma allowOrigin_status req r : status (allowOrigin options req r) = status r.
Proof.
  unfold allowOrigin. destruct (origin' options); [reflexivity |].
  destruct (headers_get (req_headers req) "Origin") as [o |]; [| reflexivity].
  destruct (truthy o && includes l o); reflexivity.
Qed.

Lemma allowOrigin_body req r : body (allowOrigin options req r) = body r.
Proof.
  unfold allowOrigin. destruct (origin' options); [reflexivity |].
  destruct (headers_get (req_headers req) "Origin") as [o |]; [| reflexivity].
  destruct (truthy o && includes l o); reflexivity.
Qed.

Lemma allowCredentials_status r : status (allowCredentials options r) = status r.
Proof. unfold allowCredentials. destruct (credentials' options); reflexivity. Qed.

Lemma allowCredentials_body r : body (allowCredentials options r) = body r.
Proof. unfold allowCredentials. destruct (credentials' options); reflexivity. Qed.

Lemma allowCredentials_origin r : allowedOrigin (allowCredentials options r) = allowedOrigin r.
Proof.
  unfold allowCredentials, allowedOrigin. destruct (credentials' options); [| reflexivity].
  apply HeaderFacts.header_with_header_other. reflexivity.
Qed.

Lemma preflight_status req : status (preflight options req) = 204.
Proof. unfold preflight. rewrite allowCredentials_status. simpl. apply allowOrigin_status. Qed.

Lemma preflight_body req : body (preflight options req) = None.
Proof. unfold preflight. rewrite allowCredentials_body. simpl. apply allowOrigin_body. Qed.

(** The request names no origin, or one that is not on the list. *)
Lemma preflight_origin_refused req allowList :
  origin options = Some (OriginList allowList) ->
  (headers_get (req_headers req) "Origin" = None \/
   exists o, headers_get (req_headers req) "Origin" = Some o /\ includes allowList o = false) ->
  allowedOrigin (preflight options req) = None.
Proof.
  intros Ho Hreq. unfold preflight. rewrite allowCredentials_origin. unfold allowedOrigin.
  rewrite !HeaderFacts.header_with_header_other by reflexivity.
  unfold allowOrigin, origin'. rewrite Ho. cbn [from_option id].
  destruct Hreq as [-> | (o & -> & Hin)]; [reflexivity |].
  rewrite Hin, andb_false_r. reflexivity.
Qed.
End Facts.


End CorsFacts.

(** * Further properties of the composition engine *)

Module ComposeMore.
Import Compose ComposeRuns.

Section Invariants.
Context {W : Type}.
Variable middlewares : list (Middleware W).
Variable handler : Handler W.
Variable options : MiddlewareOptions W.
Variable req : Request.

Local Abbreviation len := (Z.of_nat (length middlewares)).
Local Abbreviation dispatch := (dispatch middlewares handler options req).

(** A property of the state that the bookkeeping of [dispatch] keeps is
    kept by every run. *)
Variable P : DState W -> Prop.
Hypothesis P_world : forall w st, P st -> P (set_world w st).
Hypothesis P_console : forall label e st, P st -> P (record (ConsoleError label e) st).
Hypothesis P_cursor : forall i st, index st < i <= len + 1 -> P st -> P (set_index i st).
Hypothesis P_enter : forall i st,
  0 <= i <= len -> index st < i -> P st -> P (record (Invoke i) (set_index i st)).

Lemma runStage_keeps (next : DState W -> option (Outcome * DState W)) s :
  (forall st o st', P st -> next st = Some (o, st') -> P st') ->
  forall st o st', P st -> runStage next s st = Some (o, st') -> P st'.
Proof.
  intros Hnext. induction s as [o0 w | w k IH]; intros st o st' HP Hrun; simpl in Hrun.
  - inversion Hrun; subst. apply P_world, HP.
  - destruct (next (set_world w st)) as [[o1 st1] |] eqn:Hn; [| discriminate].
    eapply IH; [| exact Hrun]. eapply Hnext; [| exact Hn]. apply P_world, HP.
Qed.

Lemma catch_keeps (retry : DState W -> option (Outcome * DState W)) r o st' :
  (forall st o1 st1, P st -> retry st = Some (o1, st1) -> P st1) ->
  (forall o0 st0, r = Some (o0, st0) -> P st0) ->
  catch options req retry r = Some (o, st') -> P st'.
Proof.
  intros Hretry Hr Hc. destruct r as [[o0 st0] |]; [| discriminate].
  specialize (Hr o0 st0 eq_refl). unfold catch in Hc. destruct o0 as [r0 | e].
  - inversion Hc; subst. exact Hr.
  - destruct (continues options).
    + eapply Hretry; [| exact Hc]. apply P_console, Hr.
    + inversion Hc as [Heq]. unfold callErrorHandler in Heq.
      destruct (errorHandler options) as [eh |].
      * destruct (eh e req (world st0)) as [o1 w1]. inversion Heq; subst.
        apply P_world, Hr.
      * inversion Heq; subst. apply P_console, Hr.
Qed.

Lemma dispatch_keeps fuel :
  forall i st o st', 0 <= i <= len + 1 -> P st ->
    dispatch fuel i st = Some (o, st') -> P st'.
Proof.
  induction fuel as [| fuel IH]; intros i st o st' Hi HP Hd; [discriminate |].
  rewrite ComposeFacts.dispatch_S in Hd.
  destruct (Z.leb_spec i (index st)) as [Hle | Hgt].
  { inversion Hd; subst. exact HP. }
  assert (HP1 : P (set_index i st)) by (apply P_cursor; [lia | exact HP]).
  destruct (Z.ltb_spec i len) as [Hlt | Hge].
  - assert (Hretry : forall st0 o1 st1, P st0 ->
               dispatch fuel (i + 1) st0 = Some (o1, st1) -> P st1)
      by (intros st0 o1 st1 H0 H1; apply (IH (i + 1) st0 o1 st1); [lia | exact H0 | exact H1]).
    eapply catch_keeps; [exact Hretry | | exact Hd].
    intros o0 st0 Hr. destruct (middlewares !! Z.to_nat i) as [fn |].
    + eapply runStage_keeps; [exact Hretry | | exact Hr].
      apply P_enter; [lia | exact Hgt | exact HP].
    + inversion Hr; subst. exact HP1.
  - destruct (Z.eqb_spec i len) as [Heq | Hne].
    + eapply catch_keeps; [| | exact Hd].
      * intros st0 o1 st1 H0 H1. apply (IH (i + 1) st0 o1 st1); [lia | exact H0 | exact H1].
      * intros o0 st0 Hr. destruct (handler req _) as [o1 w1]. inversion Hr; subst.
        apply P_world. apply P_enter; [lia | exact Hgt | exact HP].
    + inversion Hd; subst. exact HP1.
Qed.
End Invariants.

Section Order.
Context {W : Type}.
Variable middlewares : list (Middleware W).

Local Abbreviation len := (Z.of_nat (length middlewares)).
Local Abbreviation in_order := (in_order middlewares).

Lemma in_order_world w (st : DState W) : in_order st -> in_order (set_world w st).
Proof. intros H. exact H. Qed.

Lemma in_order_console label e (st : DState W) :
  in_order st -> in_order (record (ConsoleError label e) st).
Proof.
  unfold ComposeRuns.in_order. simpl. rewrite ComposeFacts.invoked_app. simpl.
  rewrite app_nil_r. tauto.
Qed.

Lemma in_order_cursor i (st : DState W) :
  index st < i <= len + 1 -> in_order st -> in_order (set_index i st).
Proof.
  intros Hi (Hs & Hj & Hidx). unfold ComposeRuns.in_order. simpl.
  split; [exact Hs |]. split; [| lia].
  intros j Hin. specialize (Hj j Hin). lia.
Qed.

Lemma StronglySorted_snoc (l : list Z) x :
  StronglySorted Z.lt l -> (forall y, y ∈ l -> y < x) -> StronglySorted Z.lt (l ++ [x]).
Proof.
  induction l as [| a l IH]; intros Hs Hlt; simpl.
  - constructor; [constructor | constructor].
  - inversion Hs as [| ? ? Hs' Hall]; subst. constructor.
    + apply IH; [exact Hs' |]. intros y Hy. apply Hlt. right. exact Hy.
    + apply Forall_app. split; [exact Hall |].
      constructor; [| constructor]. apply Hlt. left.
Qed.

Lemma in_order_enter i (st : DState W) :
  0 <= i <= len -> index st < i -> in_order st ->
  in_order (record (Invoke i) (set_index i st)).
Proof.
  intros Hi Hidx (Hs & Hj & Hb). unfold ComposeRuns.in_order. simpl.
  rewrite ComposeFacts.invoked_app. simpl. split; [| split; [| lia]].
  - apply StronglySorted_snoc; [exact Hs |].
    intros y Hy. specialize (Hj y Hy). lia.
  - intros j Hin. apply elem_of_app in Hin as [Hin | Hin].
    + specialize (Hj j Hin). lia.
    + apply list_elem_of_singleton in Hin. subst j. lia.
Qed.

Lemma in_order_initial (w : W) : in_order (initial w).
Proof.
  unfold ComposeRuns.in_order. simpl. split; [constructor |]. split; [| lia].
  intros j Hj. apply elem_of_nil in Hj. contradiction.
Qed.
End Order.

Section Prefix.
Context {W : Type}.
Variable chain : list (Middleware W).
Variable handler : Handler W.
Variable options : MiddlewareOptions W.
Variable req : Request.
Variable w : W.

Local Abbreviation dispatch := (dispatch chain handler options req).

Lemma entered_state j w' :
  0 <= j ->
  set_world w' (record (Invoke j) (set_index j (before w j))) =
    {| index := j; world := w'; log := map Invoke (seqZ 0 (j + 1)) |}.
Proof.
  intros Hj. unfold set_world, record, set_index, before. simpl. f_equal.
  rewrite (seqZ_app 0 j 1) by lia. rewrite map_app. reflexivity.
Qed.

Lemma before_next j :
  0 <= j -> set_world w (record (Invoke j) (set_index j (before w j))) = before w (j + 1).
Proof.
  intros Hj. rewrite entered_state by exact Hj. unfold before. f_equal. lia.
Qed.

(** What stage [i] answers comes out of the pass-through stages before
    it as it is. *)
Lemma through_prefix i r st1 :
  0 <= i <= Z.of_nat (length chain) ->
  (forall j fn, 0 <= j < i -> chain !! Z.to_nat j = Some fn -> pass_through fn) ->
  forall n j fuel,
    j + Z.of_nat n = i -> 0 <= j ->
    dispatch fuel i (before w i) = Some (Fulfilled r, st1) ->
    dispatch (n + fuel) j (before w j) = Some (Fulfilled r, st1).
Proof.
  intros Hi Hpre. induction n as [| n IH]; intros j fuel Hj H0 Hd.
  - replace j with i by lia. exact Hd.
  - change (S n + fuel)%nat with (S (n + fuel)). rewrite ComposeFacts.dispatch_S.
    destruct (Z.leb_spec j (index (before w j))) as [Hle | _]; [simpl in Hle; lia |].
    destruct (Z.ltb_spec j (Z.of_nat (length chain))); [| lia].
    destruct (lookup_lt_is_Some_2 chain (Z.to_nat j)) as [fn Hfn]; [lia |].
    match goal with
    | |- context [match ?x with Some _ => _ | None => _ end] =>
        let E := fresh "E" in assert (E : x = Some fn) by exact Hfn; rewrite E; clear E
    end.
    destruct (Hpre j fn ltac:(lia) Hfn req (world (before w j))) as (k & -> & Hk).
    cbn [runStage]. change (world (before w j)) with w.
    rewrite before_next by exact H0.
    rewrite (IH (j + 1) fuel) by (try lia; exact Hd).
    rewrite Hk. cbn [runStage catch]. destruct st1. reflexivity.
Qed.

Lemma initial_before : initial w = before w 0.
Proof. reflexivity. Qed.
End Prefix.

Lemma chain_middle {W} (pre post : list (Middleware W)) m :
  (pre ++ m :: post) !! Z.to_nat (Z.of_nat (length pre)) = Some m /\
  depth (pre ++ m :: post) = (length pre + S (S (S (length post))))%nat /\
  0 <= Z.of_nat (length pre) <= Z.of_nat (length (pre ++ m :: post)).
Proof.
  split; [| split].
  - rewrite Nat2Z.id. apply list_lookup_middle. reflexivity.
  - unfold depth. rewrite length_app. simpl. lia.
  - rewrite length_app. simpl. lia.
Qed.

Lemma chain_prefix {W} (pre post : list (Middleware W)) m :
  Forall pass_through pre ->
  forall j fn, 0 <= j < Z.of_nat (length pre) ->
    (pre ++ m :: post) !! Z.to_nat j = Some fn -> pass_through fn.
Proof.
  intros Hpre j fn Hj Hfn. rewrite lookup_app_l in Hfn by lia.
  rewrite Forall_lookup in Hpre. eapply Hpre, Hfn.
Qed.

(** X1. For stages and a terminal handler that settle (each returns or
    raises, having invoked its continuation finitely often), under
    either policy: the recursion of [dispatch] is no deeper than the
    chain is long plus two, so the run of the composed handler ends; the
    stage functions are entered in the order of the chain (strictly
    increasing indices, so none twice), only indices of a middleware or
    of the terminal handler are entered, and the cursor ends between 0
    and one past the terminal handler. *)
Theorem stages_in_order {W} (middlewares : list (Middleware W))
    (handler : Handler W) (options : MiddlewareOptions W) (req : Request) (w : W) :
  exists o st,
    compose middlewares handler options req w = Some (o, st) /\
    StronglySorted Z.lt (invoked (log st)) /\
    (forall j, j ∈ invoked (log st) -> 0 <= j <= Z.of_nat (length middlewares)) /\
    0 <= index st <= Z.of_nat (length middlewares) + 1.
Proof.
  destruct (ComposeFacts.dispatch_total middlewares handler options req
              (depth middlewares) 0 (initial w)) as [[o st] Hd];
    [unfold enough, depth; lia |].
  exists o, st. split; [exact Hd |].
  pose proof (ComposeFacts.dispatch_advances middlewares handler options req _ _ _ _ _ Hd)
    as [_ Hge].
  assert (Hin : in_order middlewares st).
  { apply (dispatch_keeps middlewares handler options req (in_order middlewares)
             (in_order_world middlewares) (in_order_console middlewares)
             (in_order_cursor middlewares) (in_order_enter middlewares)
             (depth middlewares) 0 (initial w) o st);
      [lia | apply in_order_initial | exact Hd]. }
  destruct Hin as (Hs & Hj & Hb). split; [exact Hs |]. split; [| lia].
  intros j Hin. specialize (Hj j Hin). lia.
Qed.

Lemma stages_in_order_witness :
  exists o st,
    compose [passThrough; callsTwice; raisesAfterNext Samples.boom]
      (Samples.fails Samples.boom) (Samples.onError true) Samples.request tt = Some (o, st) /\
    StronglySorted Z.lt (invoked (log st)) /\
    (forall j, j ∈ invoked (log st) -> 0 <= j <= 3) /\
    0 <= index st <= 3 + 1.
Proof.
  exact (stages_in_order [passThrough; callsTwice; raisesAfterNext Samples.boom]
           (Samples.fails Samples.boom) (Samples.onError true) Samples.request tt).
Defined.

(** X2. When a stage answers without invoking its continuation, and the
    stages before it are pass-through, the caller receives that answer;
    the stages up to it were entered, no later stage and not the
    terminal handler. *)
Theorem short_circuit_stops_chain {W} (pre post : list (Middleware W)) (m : Middleware W)
    (handler : Handler W) (options : MiddlewareOptions W) (req : Request)
    (w w' : W) (r : Response) :
  Forall pass_through pre ->
  m req w = Done (Fulfilled r) w' ->
  compose (pre ++ m :: post) handler options req w =
    Some (Fulfilled r,
          {| index := Z.of_nat (length pre); world := w';
             log := map Invoke (seqZ 0 (Z.of_nat (length pre) + 1)) |}).
Proof.
  intros Hpre Hm. destruct (chain_middle pre post m) as (Hlk & Hdepth & Hi).
  unfold compose, composedHandler. rewrite Hdepth, initial_before.
  apply (through_prefix _ _ _ _ _ (Z.of_nat (length pre)));
    [exact Hi | apply chain_prefix, Hpre | lia | lia |].
  rewrite (ComposeFacts.dispatch_short_circuit _ _ _ _ _ _ _ m r w');
    [| lia | exact Hlk | simpl; lia | exact Hm].
  f_equal. f_equal. rewrite <- (entered_state w) by lia. reflexivity.
Qed.

Lemma short_circuit_stops_chain_witness :
  Forall pass_through [@passThrough unit] /\
  (fun (_ : Request) (u : unit) => Done (Fulfilled Samples.hello) u) Samples.request tt =
    Done (Fulfilled Samples.hello) tt /\
  compose ([passThrough] ++ (fun _ u => Done (Fulfilled Samples.hello) u) :: [passThrough])
      (Samples.fails Samples.boom) noOptions Samples.request tt =
    Some (Fulfilled Samples.hello,
          {| index := 1; world := tt; log := [Invoke 0; Invoke 1] |}).
Proof.
  assert (H1 : Forall pass_through [@passThrough unit])
    by (repeat constructor; apply ComposeFacts.passThrough_pass_through).
  split; [exact H1 |]. split; [reflexivity |].
  exact (short_circuit_stops_chain [passThrough] [passThrough]
           (fun _ u => Done (Fulfilled Samples.hello) u)
           (Samples.fails Samples.boom) noOptions Samples.request tt tt Samples.hello
           H1 eq_refl).
Defined.

(** X3. Without [continueOnError], when a stage raises before invoking
    its continuation and the stages before it are pass-through, the
    error handler is called with that error in the state the stage left,
    and what it answers is what the caller receives; no later stage and
    not the terminal handler is entered.  With the default error handler
    the answer is the 500 response. *)
Theorem error_answered_by_handler {W} (pre post : list (Middleware W)) (m : Middleware W)
    (handler : Handler W) (options : MiddlewareOptions W) (req : Request)
    (w w' : W) (e : Exn) (r : Response) (st1 : DState W) :
  Forall pass_through pre ->
  m req w = Done (Rejected e) w' ->
  continues options = false ->
  callErrorHandler options req e
    {| index := Z.of_nat (length pre); world := w';
       log := map Invoke (seqZ 0 (Z.of_nat (length pre) + 1)) |} = (Fulfilled r, st1) ->
  compose (pre ++ m :: post) handler options req w = Some (Fulfilled r, st1) /\
  invoked (log st1) = seqZ 0 (Z.of_nat (length pre) + 1) /\
  (errorHandler options = None -> r = internalServerError).
Proof.
  intros Hpre Hm Hc Heh. destruct (chain_middle pre post m) as (Hlk & Hdepth & Hi).
  split; [| split].
  - unfold compose, composedHandler. rewrite Hdepth, initial_before.
    apply (through_prefix _ _ _ _ _ (Z.of_nat (length pre)));
      [exact Hi | apply chain_prefix, Hpre | lia | lia |].
    rewrite ComposeFacts.dispatch_S.
    destruct (Z.leb_spec (Z.of_nat (length pre)) (index (before w (Z.of_nat (length pre)))))
      as [Hle | _]; [simpl in Hle; lia |].
    destruct (Z.ltb_spec (Z.of_nat (length pre)) (Z.of_nat (length (pre ++ m :: post))));
      [| rewrite length_app in *; simpl in *; lia].
    match goal with
    | |- context [match ?x with Some _ => _ | None => _ end] =>
        let E := fresh "E" in assert (E : x = Some m) by exact Hlk; rewrite E; clear E
    end.
    change (world (before w (Z.of_nat (length pre)))) with w. rewrite Hm.
    cbn [runStage]. rewrite entered_state by lia. unfold catch. rewrite Hc, Heh. reflexivity.
  - unfold callErrorHandler in Heh. destruct (errorHandler options) as [eh |].
    + destruct (eh e req _) as [o1 w1]. inversion Heh; subst. simpl.
      clear. induction (seqZ 0 (Z.of_nat (length pre) + 1)) as [| a l IH];
        [reflexivity | simpl; rewrite IH; reflexivity].
    + inversion Heh; subst. simpl. rewrite ComposeFacts.invoked_app. simpl.
      rewrite app_nil_r.
      clear. induction (seqZ 0 (Z.of_nat (length pre) + 1)) as [| a l IH];
        [reflexivity | simpl; rewrite IH; reflexivity].
  - intros Hnone. unfold callErrorHandler in Heh. rewrite Hnone in Heh.
    inversion Heh. reflexivity.
Qed.

Lemma error_answered_by_handler_witness :
  compose ([passThrough] ++ raisesFirst Samples.boom :: [passThrough])
      (Samples.answers Samples.hello) noOptions Samples.request tt =
    Some (Fulfilled internalServerError,
          {| index := 1; world := tt;
             log := [Invoke 0; Invoke 1;
                     ConsoleError "Unhandled middleware error:" Samples.boom] |}) /\
  invoked [Invoke 0; Invoke 1;
           @ConsoleError "Unhandled middleware error:" Samples.boom] = [0; 1] /\
  (errorHandler (@noOptions unit) = None -> internalServerError = internalServerError).
Proof.
  assert (H1 : Forall pass_through [@passThrough unit])
    by (repeat constructor; apply ComposeFacts.passThrough_pass_through).
  exact (error_answered_by_handler [passThrough] [passThrough] (raisesFirst Samples.boom)
           (Samples.answers Samples.hello) noOptions Samples.request tt tt Samples.boom
           internalServerError _ H1 eq_refl eq_refl eq_refl).
Defined.

Lemma invoked_enter {W} (st : DState W) i w0 :
  invoked (log (set_world w0 (record (Invoke i) (set_index i st)))) = invoked (log st) ++ [i].
Proof. simpl. rewrite ComposeFacts.invoked_app. reflexivity. Qed.

Lemma continued_to_handler {W} (middlewares : list (Middleware W))
    (handler : Handler W) (options : MiddlewareOptions W) (req : Request)
    (w w' : W) (r : Response) :
  continues options = true ->
  Forall transparent middlewares ->
  handler req w = (Fulfilled r, w') ->
  forall fuel i st,
    0 <= i <= Z.of_nat (length middlewares) -> index st < i ->
    enough middlewares fuel i -> world st = w ->
    exists st', dispatch middlewares handler options req fuel i st = Some (Fulfilled r, st') /\
      world st' = w' /\
      invoked (log st') =
        invoked (log st) ++ seqZ i (Z.of_nat (length middlewares) + 1 - i).
Proof.
  intros Hc Hall Hh. induction fuel as [| fuel IH]; intros i st Hi Hidx [H1 H2] Hw; [lia |].
  rewrite ComposeFacts.dispatch_S. destruct (Z.leb_spec i (index st)); [lia |].
  assert (Hseq : seqZ i (Z.of_nat (length middlewares) + 1 - i) =
                 i :: seqZ (i + 1) (Z.of_nat (length middlewares) + 1 - (i + 1))).
  { rewrite (seqZ_cons i) by lia. f_equal. f_equal; lia. }
  destruct (Z.ltb_spec i (Z.of_nat (length middlewares))) as [Hlt | Hge].
  - destruct (ComposeFacts.stage_lookup middlewares transparent i Hall) as (fn & Hfn & Htr);
      [lia |].
    match goal with
    | |- context [match ?x with Some _ => _ | None => _ end] =>
        let E := fresh "E" in assert (E : x = Some fn) by exact Hfn; rewrite E; clear E
    end.
    destruct Htr as [Hpt | Hra].
    + destruct (Hpt req (world st)) as (k & -> & Hk). cbn [runStage].
      match goal with
      | |- context [dispatch _ _ _ _ fuel (i + 1) ?s] =>
          destruct (IH (i + 1) s) as (st' & Hd & Hw' & Hlog);
            [lia | simpl; lia | unfold enough; lia | simpl; exact Hw |]
      end.
      rewrite Hd, Hk. cbn [runStage catch]. eexists. split; [reflexivity |].
      split; [simpl; exact Hw' |].
      cbn [log set_world]. rewrite Hlog, invoked_enter, Hseq, <- app_assoc. reflexivity.
    + destruct (Hra req (world st)) as (e & ->). cbn [runStage]. unfold catch. rewrite Hc.
      match goal with
      | |- context [dispatch _ _ _ _ fuel (i + 1) ?s] =>
          destruct (IH (i + 1) s) as (st' & Hd & Hw' & Hlog);
            [lia | simpl; lia | unfold enough; lia | simpl; exact Hw |]
      end.
      exists st'. split; [exact Hd |]. split; [exact Hw' |].
      rewrite Hlog, Hseq. simpl. rewrite !ComposeFacts.invoked_app. simpl.
      rewrite app_nil_r, <- app_assoc. reflexivity.
  - destruct (Z.eqb_spec i (Z.of_nat (length middlewares))) as [Heq | Hne]; [| lia].
    cbn [world record set_index]. rewrite Hw, Hh. cbn [catch]. eexists. split; [reflexivity |].
    split; [reflexivity |]. rewrite invoked_enter.
    replace (Z.of_nat (length middlewares) + 1 - i) with 1 by lia. reflexivity.
Qed.

(** X4. With [continueOnError], a chain whose stages are pass-through or
    raise at once behaves as if the raising stages were not there: the
    terminal handler runs in the world the chain was entered in and its
    response is what the caller receives; every stage and the handler
    were entered once, in order. *)
Theorem errors_continued_over {W} (middlewares : list (Middleware W))
    (handler : Handler W) (options : MiddlewareOptions W) (req : Request)
    (w w' : W) (r : Response) :
  continues options = true ->
  Forall transparent middlewares ->
  handler req w = (Fulfilled r, w') ->
  exists st,
    compose middlewares handler options req w = Some (Fulfilled r, st) /\
    world st = w' /\
    invoked (log st) = seqZ 0 (Z.of_nat (length middlewares) + 1).
Proof.
  intros Hc Hall Hh.
  destruct (continued_to_handler middlewares handler options req w w' r Hc Hall Hh
              (depth middlewares) 0 (initial w))
    as (st & Hd & Hw & Hlog); [lia | simpl; lia | unfold enough, depth; lia | reflexivity |].
  exists st. split; [exact Hd |]. split; [exact Hw |].
  rewrite Hlog. simpl. rewrite Z.sub_0_r. reflexivity.
Qed.

Lemma errors_continued_over_witness :
  Forall transparent [@raisesFirst unit Samples.boom; passThrough; raisesFirst Samples.boom] /\
  exists st,
    compose [raisesFirst Samples.boom; passThrough; raisesFirst Samples.boom]
      (Samples.answers Samples.hello) (Samples.onError true) Samples.request tt =
      Some (Fulfilled Samples.hello, st) /\
    world st = tt /\
    invoked (log st) = [0; 1; 2; 3].
Proof.
  assert (Hr : transparent (@raisesFirst unit Samples.boom))
    by (right; intros q u; exists Samples.boom; reflexivity).
  assert (Hp : transparent (@passThrough unit))
    by (left; apply ComposeFacts.passThrough_pass_through).
  assert (H : Forall transparent
                [@raisesFirst unit Samples.boom; passThrough; raisesFirst Samples.boom])
    by (constructor; [exact Hr |]; constructor; [exact Hp |];
        constructor; [exact Hr | constructor]).
  split; [exact H |].
  exact (errors_continued_over [raisesFirst Samples.boom; passThrough; raisesFirst Samples.boom]
           (Samples.answers Samples.hello) (Samples.onError true) Samples.request tt tt
           Samples.hello eq_refl H eq_refl).
Defined.
End ComposeMore.

(** * Properties of the chain builder *)

Module ChainFacts.
Import Compose Chain.

Section Facts.
Context {W : Type}.
Implicit Types (c : MiddlewareChain W) (o : MiddlewareOptions W).

Lemma spread_assoc o1 o2 o3 : spread (spread o1 o2) o3 = spread o1 (spread o2 o3).
Proof.
  destruct o1 as [c1 e1], o2 as [c2 e2], o3 as [c3 e3]. unfold spread. simpl.
  destruct c3, e3; reflexivity.
Qed.

Lemma spread_empty_r o : spread o noOptions = o.
Proof. destruct o. reflexivity. Qed.

Lemma spread_empty_l o : spread noOptions o = o.
Proof. destruct o as [c e]. unfold spread. simpl. destruct c, e; reflexivity. Qed.

Lemma spread_twice o1 o : spread (spread o1 o) o = spread o1 o.
Proof.
  destruct o1 as [c1 e1], o as [c e]. unfold spread. simpl. destruct c, e; reflexivity.
Qed.

Lemma useAll_middlewares ms :
  forall c, middlewares (useAll ms c) = middlewares c ++ ms /\ options (useAll ms c) = options c.
Proof.
  induction ms as [| m ms IH]; intros c; simpl.
  - rewrite app_nil_r. split; reflexivity.
  - destruct (IH (use m c)) as [-> ->]. simpl. rewrite <- app_assoc. split; reflexivity.
Qed.

Lemma configureAll_fields os :
  forall c, middlewares (configureAll os c) = middlewares c /\
            options (configureAll os c) = fold_left spread os (options c).
Proof.
  induction os as [| o os IH]; intros c; simpl.
  - split; reflexivity.
  - destruct (IH (configure o c)) as [-> ->]. split; reflexivity.
Qed.
End Facts.

(** X5. The order in which middleware are added is the order of the
    chain: a handler made from a new builder after [use] calls for [ms]
    and [configure] calls for [os] is [compose] of [ms] in that order
    with the options spread together in the order given; and
    [withMiddleware] is the chain of a single [use]. *)
Theorem builder_keeps_order {W} (ms : list (Middleware W))
    (os : list (MiddlewareOptions W)) (handler : Handler W) (m : Middleware W) :
  (let c := configureAll os (useAll ms createMiddlewareChain) in
   handle handler c c = compose ms handler (fold_left spread os noOptions)) /\
  (let c := useAll ms (configureAll os createMiddlewareChain) in
   handle handler c c = compose ms handler (fold_left spread os noOptions)) /\
  withMiddleware m handler =
    handle handler (use m createMiddlewareChain) (use m createMiddlewareChain).
Proof.
  split; [| split]; [| | reflexivity]; cbv zeta; unfold handle.
  - destruct (configureAll_fields os (useAll ms (@createMiddlewareChain W))) as [-> ->].
    destruct (useAll_middlewares ms (@createMiddlewareChain W)) as [-> ->]. reflexivity.
  - destruct (useAll_middlewares ms (configureAll os (@createMiddlewareChain W))) as [-> ->].
    destruct (configureAll_fields os (@createMiddlewareChain W)) as [-> ->]. reflexivity.
Qed.

(** X6. [configure] calls combine: two calls are one call with the
    second options spread over the first, so a field given later wins
    and a field left out keeps what was there; configuring with no
    field changes nothing, and repeating a call changes nothing more. *)
Theorem configure_combines {W} (c : MiddlewareChain W) (o1 o2 : MiddlewareOptions W) :
  configure o2 (configure o1 c) = configure (spread o1 o2) c /\
  configure noOptions c = c /\
  configure o1 (configure o1 c) = configure o1 c /\
  continues (options (configure o2 (configure o1 c))) =
    match continueOnError o2, continueOnError o1 with
    | Some b, _ => b
    | None, Some b => b
    | None, None => continues (options c)
    end.
Proof.
  split; [| split; [| split]].
  - unfold configure. simpl. rewrite spread_assoc. reflexivity.
  - unfold configure. rewrite spread_empty_r. destruct c. reflexivity.
  - unfold configure. simpl. rewrite spread_twice. reflexivity.
  - unfold configure, continues, spread. simpl.
    destruct (continueOnError o2), (continueOnError o1); reflexivity.
Qed.
End ChainFacts.

(** * Further properties of the rate limiter *)

Module RateLimitMore.
Import RateLimit RateLimitRuns.

Section Facts.
Variable hostname : string -> string.
Variable options : RateLimitOptions.

Local Abbreviation keyOf := (keyOf hostname options).
Local Abbreviation rateLimit := (rateLimit hostname options).
Local Abbreviation afterNext := (afterNext options).
Local Abbreviation request := (request hostname options).
Local Abbreviation requests := (requests hostname options).
Local Abbreviation requestWith := (requestWith hostname options).
Local Abbreviation over_limit := (over_limit hostname options).

(** The code before [next()] stores one entry for the key of the
    request, and either answers 429 or goes on. *)
Lemma rateLimit_cases req w :
  (over_limit req w /\
   exists c, clients w !! keyOf req = Some c /\
     rateLimit req w =
       Done (Fulfilled (tooManyRequests options (bumped c) (clock w)))
            (store (keyOf req) (bumped c) w)) \/
  (~ over_limit req w /\
   exists c', rateLimit req w = Await (store (keyOf req) c' w) (afterNext (keyOf req)) /\
     (c' = opened options (clock w) \/
      exists c, clients w !! keyOf req = Some c /\ c' = bumped c)).
Proof.
  destruct (clients w !! keyOf req) as [c |] eqn:Hc.
  - destruct (Z.lt_ge_cases (resetTime c) (clock w)) as [Hexp | Hin].
    + right. split.
      * intros (c0 & Hc0 & Hle & _). rewrite Hc in Hc0. inversion Hc0; subst. lia.
      * eexists. split; [| left; reflexivity].
        apply RateLimitFacts.rateLimit_opens. right. exists c. split; assumption.
    + destruct (Z.lt_ge_cases (maxRequests options) (count c + 1)) as [Hover | Hunder].
      * left. split; [exists c; repeat split; assumption |].
        exists c. split; [reflexivity |].
        apply RateLimitFacts.rateLimit_rejects; assumption.
      * right. split.
        -- intros (c0 & Hc0 & _ & Hlt). rewrite Hc in Hc0. inversion Hc0; subst. lia.
        -- eexists. split; [| right; exists c; split; reflexivity].
           apply RateLimitFacts.rateLimit_counts; [exact Hc | exact Hin | lia].
  - right. split.
    + intros (c0 & Hc0 & _). rewrite Hc in Hc0. discriminate.
    + eexists. split; [| left; reflexivity].
      apply RateLimitFacts.rateLimit_opens. left. exact Hc.
Qed.

(** The code after [next()] leaves the map as it is or stores one entry
    for the key. *)
Lemma afterNext_cases key o w :
  exists o', afterNext key o w = Done o' w \/
             exists c, afterNext key o w = Done o' (store key c w).
Proof.
  unfold RateLimit.afterNext. destruct o as [r | e]; [| eexists; left; reflexivity].
  destruct (skips options && (status r <? 400)).
  - destruct (clients w !! key) as [c |] eqn:Hc.
    + fold (uncounted c). fold (store key (uncounted c) w).
      rewrite RateLimitFacts.lookup_store, RateLimitFacts.finish_returned.
      eexists. right. eexists. reflexivity.
    + rewrite Hc. eexists. left. reflexivity.
  - destruct (clients w !! key) as [c |].
    + rewrite RateLimitFacts.finish_returned. eexists. left. reflexivity.
    + eexists. left. reflexivity.
Qed.

Lemma lookup_store_other key other e w :
  other <> key -> clients (store key e w) !! other = clients w !! other.
Proof.
  intros Hne. unfold store, set_clients. simpl. apply lookup_insert_ne. congruence.
Qed.
End Facts.

(** X8. A request changes the entry of its own key only: whatever the
    continuation answers or raises, and whether the request is let
    through or turned away, the entries of all other keys are the same
    afterwards. *)
Theorem other_keys_untouched (hostname : string -> string) (options : RateLimitOptions)
    (req : Request) (now : Z) (o : Outcome) (w : World) (other : string) :
  other <> keyOf hostname options req ->
  clients (snd (fst (requestWith hostname options req now o w))) !! other =
    clients w !! other.
Proof.
  intros Hne. unfold requestWith, serve.
  destruct (rateLimit_cases hostname options req (at_time now w))
    as [(_ & c & _ & ->) | (_ & c' & -> & _)]; cbn [runWith fst snd].
  - rewrite lookup_store_other by exact Hne. reflexivity.
  - destruct (afterNext_cases options (keyOf hostname options req) o
                (store (keyOf hostname options req) c' (at_time now w)))
      as (o' & [-> | (c & ->)]); cbn [runWith fst snd].
    + rewrite lookup_store_other by exact Hne. reflexivity.
    + rewrite !lookup_store_other by exact Hne. reflexivity.
Qed.

Lemma other_keys_untouched_witness :
  "other.test"%string <> keyOf Samples.hostname Samples.limit3 Samples.request /\
  clients (snd (fst (requestWith Samples.hostname Samples.limit3 Samples.request 61000
                       (Rejected Samples.boom)
                       (store "other.test" {| count := 2; resetTime := 70000 |}
                          Samples.exhausted)))) !! "other.test"%string =
    Some {| count := 2; resetTime := 70000 |}.
Proof.
  assert (H : "other.test"%string <> keyOf Samples.hostname Samples.limit3 Samples.request)
    by discriminate.
  split; [exact H |].
  rewrite (other_keys_untouched Samples.hostname Samples.limit3 Samples.request 61000
             (Rejected Samples.boom)
             (store "other.test" {| count := 2; resetTime := 70000 |} Samples.exhausted)
             "other.test" H).
  reflexivity.
Defined.

(** X9. The 429 branch is taken exactly when the key has an entry whose
    window has not ended (now <= reset time) and whose count is already
    at the limit or beyond.  Then the count is still incremented and
    stored, the continuation is not reached, the remaining count shown
    is 0, and the retry delay [s] is the time to the reset rounded up to
    whole seconds, never negative.  In every other case the request
    goes on to the continuation. *)
Theorem rejection_exact (hostname : string -> string) (options : RateLimitOptions)
    (req : Request) (w : World) :
  let key := keyOf hostname options req in
  (over_limit hostname options req w ->
   exists c s response,
     clients w !! key = Some c /\
     rateLimit hostname options req w = Done (Fulfilled response) (store key (bumped c) w) /\
     status response = 429 /\
     header response "Retry-After" = Some (pretty s) /\
     header response "X-RateLimit-Remaining" = Some "0" /\
     header response "X-RateLimit-Reset" = Some (pretty (resetTime c)) /\
     0 <= s /\ 1000 * (s - 1) < resetTime c - clock w <= 1000 * s) /\
  (~ over_limit hostname options req w ->
   exists w1, rateLimit hostname options req w = Await w1 (afterNext options key)).
Proof.
  intros key. split.
  - intros Hover.
    destruct (rateLimit_cases hostname options req w)
      as [(_ & c & Hc & Hr) | (Hnot & _)]; [| contradiction].
    destruct Hover as (c0 & Hc0 & Hle & Hlt).
    assert (c0 = c) by congruence. subst c0.
    exists c, (ceil_div (resetTime c - clock w) 1000),
      (tooManyRequests options (bumped c) (clock w)).
    split; [exact Hc |]. split; [exact Hr |]. split; [reflexivity |].
    split; [reflexivity |]. split.
    { unfold header, tooManyRequests, headers_get. simpl.
      rewrite Z.max_l by lia. reflexivity. }
    split; [reflexivity |].
    pose proof (RateLimitFacts.ceil_div_bounds (resetTime c - clock w) 1000 ltac:(lia))
      as [Hlo Hhi].
    split; [| split; assumption]. lia.
  - intros Hnot.
    destruct (rateLimit_cases hostname options req w)
      as [(Hover & _) | (_ & c' & Hr & _)]; [contradiction |].
    eexists. exact Hr.
Qed.

Lemma rejection_exact_witness :
  let w := at_time 61000 Samples.exhausted in
  over_limit Samples.hostname Samples.limit3 Samples.request w /\
  (exists c s response,
     clients w !! "example.test"%string = Some c /\
     rateLimit Samples.hostname Samples.limit3 Samples.request w =
       Done (Fulfilled response) (store "example.test" (bumped c) w) /\
     status response = 429 /\
     header response "Retry-After" = Some (pretty s) /\
     header response "X-RateLimit-Remaining" = Some "0" /\
     header response "X-RateLimit-Reset" = Some (pretty (resetTime c)) /\
     0 <= s /\ 1000 * (s - 1) < resetTime c - clock w <= 1000 * s) /\
  ~ over_limit Samples.hostname Samples.limit3 Samples.request Samples.freshLimiter /\
  exists w1, rateLimit Samples.hostname Samples.limit3 Samples.request Samples.freshLimiter =
               Await w1 (afterNext Samples.limit3 "example.test").
Proof.
  assert (Hover : over_limit Samples.hostname Samples.limit3 Samples.request
                    (at_time 61000 Samples.exhausted)).
  { exists {| count := 3; resetTime := 61000 |}. split; [reflexivity |]. simpl. lia. }
  assert (Hnot : ~ over_limit Samples.hostname Samples.limit3 Samples.request
                     Samples.freshLimiter).
  { intros (c & Hc & _). discriminate Hc. }
  split; [exact Hover |]. split; [| split; [exact Hnot |]].
  - exact (proj1 (rejection_exact Samples.hostname Samples.limit3 Samples.request
                    (at_time 61000 Samples.exhausted)) Hover).
  - exact (proj2 (rejection_exact Samples.hostname Samples.limit3 Samples.request
                    Samples.freshLimiter) Hnot).
Defined.

Lemma requests_length hostname options calls :
  forall w, length (fst (requests hostname options calls w)) = length calls.
Proof.
  induction calls as [| [[req now] r] calls IH]; intros w; [reflexivity |].
  cbn [RateLimit.requests].
  destruct (request hostname options req now r w) as [[o w1] n].
  specialize (IH w1). destruct (requests hostname options calls w1) as [os w2].
  simpl in *. rewrite IH. reflexivity.
Qed.

(** Inside a window every counted request adds one to the count, let
    through or not, and is let through while the count stays within the
    limit. *)
Lemma counted_run hostname options key calls :
  forall w c,
    clients w !! key = Some c ->
    Forall (fun call => keyOf hostname options (fst (fst call)) = key /\
                        snd (fst call) <= resetTime c /\
                        counted options call) calls ->
    forall k call res,
      calls !! k = Some call ->
      fst (requests hostname options calls w) !! k = Some res ->
      (count c + Z.of_nat k + 1 <= maxRequests options -> allowed call res) /\
      (maxRequests options < count c + Z.of_nat k + 1 -> rejected res).
Proof.
  induction calls as [| [[req now] r] calls IH]; intros w c Hc Hall k call res Hk Hres.
  - discriminate Hk.
  - apply Forall_cons in Hall as [(Hkey & Hnow & Hcounted) Hall].
    simpl in Hkey, Hnow. subst key.
    assert (Hstep : exists o n,
               request hostname options req now r w =
                 (o, store (keyOf hostname options req) (bumped c) (at_time now w), n) /\
               (count c + 1 <= maxRequests options ->
                  n = 1%nat /\ o = returned options (bumped c) r) /\
               (maxRequests options < count c + 1 ->
                  n = 0%nat /\ o = Fulfilled (tooManyRequests options (bumped c) now))).
    { destruct (Z.lt_ge_cases (maxRequests options) (count c + 1)) as [Hover | Hunder].
      - eexists _, _. split; [apply RateLimitFacts.request_rejected; assumption |].
        split; [lia | intros _; split; reflexivity].
      - eexists _, _. split.
        + apply RateLimitFacts.request_counted; [exact Hcounted |].
          apply RateLimitFacts.rateLimit_counts; [exact Hc | exact Hnow | lia].
        + split; [intros _; split; reflexivity | lia]. }
    destruct Hstep as (o & n & Hreq & Hin & Hout).
    cbn [RateLimit.requests] in Hres. rewrite Hreq in Hres.
    destruct (requests hostname options calls
                (store (keyOf hostname options req) (bumped c) (at_time now w)))
      as [os w2] eqn:Hrest.
    simpl in Hres. destruct k as [| k].
    + simpl in Hk, Hres. inversion Hk; subst call. inversion Hres; subst res. split.
      * intros Hle. destruct (Hin ltac:(lia)) as [-> ->].
        apply (RateLimitFacts.returned_allowed options (req, now, r)). reflexivity.
      * intros Hlt. destruct (Hout ltac:(lia)) as [-> ->]. split; reflexivity.
    + simpl in Hk, Hres.
      assert (Hos : fst (requests hostname options calls
                           (store (keyOf hostname options req) (bumped c) (at_time now w)))
                    !! k = Some res) by (rewrite Hrest; exact Hres).
      destruct (IH _ (bumped c) (RateLimitFacts.lookup_store _ _ _) Hall k call res Hk Hos)
        as [Ha Hr].
      simpl in Ha, Hr. split; intros H; [apply Ha | apply Hr]; lia.
Qed.

(** X10. Within one window the limiter lets through exactly the first
    [maxRequests] requests of a key.  For requests that count (successful
    requests are not skipped, or the response is 400 or above), the
    first one opening the window and the others not after its end: the
    request at position [k] (from 0) is let through when [k] is below
    the limit and turned away with 429 otherwise.  The request that
    opens the window is let through whatever the limit is. *)
Theorem window_admits_exactly (hostname : string -> string) (options : RateLimitOptions)
    (req1 : Request) (t1 : Z) (r1 : Response) (rest : list (Request * Z * Response))
    (w0 : World) :
  let key := keyOf hostname options req1 in
  let calls := (req1, t1, r1) :: rest in
  (clients w0 !! key = None \/
   exists c, clients w0 !! key = Some c /\ resetTime c < t1) ->
  counted options (req1, t1, r1) ->
  Forall (fun call => keyOf hostname options (fst (fst call)) = key /\
                      snd (fst call) <= t1 + windowMs options /\
                      counted options call) rest ->
  length (fst (requests hostname options calls w0)) = length calls /\
  forall k call res,
    calls !! k = Some call ->
    fst (requests hostname options calls w0) !! k = Some res ->
    (k = 0%nat \/ Z.of_nat k < maxRequests options -> allowed call res) /\
    (k <> 0%nat /\ maxRequests options <= Z.of_nat k -> rejected res).
Proof.
  intros key calls Hopen Hfirst Hrest. split; [apply requests_length |].
  intros k call res Hk Hres. unfold calls in Hk, Hres.
  cbn [RateLimit.requests] in Hres.
  rewrite (RateLimitFacts.request_counted hostname options req1 t1 r1 w0
             (opened options t1) Hfirst
             (RateLimitFacts.rateLimit_opens hostname options req1 (at_time t1 w0) Hopen))
    in Hres.
  destruct (requests hostname options rest
              (store (keyOf hostname options req1) (opened options t1) (at_time t1 w0)))
    as [os w2] eqn:Hrun.
  simpl in Hres. destruct k as [| k].
  - simpl in Hk, Hres. inversion Hk; subst call. inversion Hres; subst res. split.
    + intros _. apply (RateLimitFacts.returned_allowed options (req1, t1, r1)). reflexivity.
    + intros [Hne _]. contradiction.
  - simpl in Hk, Hres.
    assert (Hos : fst (requests hostname options rest
                         (store (keyOf hostname options req1) (opened options t1)
                            (at_time t1 w0))) !! k = Some res)
      by (rewrite Hrun; exact Hres).
    destruct (counted_run hostname options key rest _ (opened options t1)
                (RateLimitFacts.lookup_store _ _ _) Hrest k call res Hk Hos) as [Ha Hr].
    simpl in Ha, Hr. split.
    + intros [H0 | Hlt]; [discriminate | apply Ha; lia].
    + intros [_ Hge]. apply Hr. lia.
Qed.

Lemma window_admits_exactly_witness :
  let calls := [(Samples.request, 1000, Samples.hello); (Samples.request, 1500, Samples.hello);
                (Samples.request, 61000, Samples.hello); (Samples.request, 61000, Samples.hello)] in
  let results := fst (requests Samples.hostname Samples.limit3 calls Samples.freshLimiter) in
  length results = 4%nat /\
  (forall res, results !! 2%nat = Some res -> allowed (Samples.request, 61000, Samples.hello) res) /\
  (forall res, results !! 3%nat = Some res -> rejected res).
Proof.
  assert (Hopen : clients Samples.freshLimiter
                    !! keyOf Samples.hostname Samples.limit3 Samples.request = None \/
                  exists c, clients Samples.freshLimiter
                              !! keyOf Samples.hostname Samples.limit3 Samples.request = Some c /\
                            resetTime c < 1000)
    by (left; reflexivity).
  assert (Hcounted : forall call, counted Samples.limit3 call) by (intros call; left; reflexivity).
  assert (Hrest : Forall (fun call =>
                     keyOf Samples.hostname Samples.limit3 (fst (fst call)) =
                       keyOf Samples.hostname Samples.limit3 Samples.request /\
                     snd (fst call) <= 1000 + windowMs Samples.limit3 /\
                     counted Samples.limit3 call)
                    [(Samples.request, 1500, Samples.hello);
                     (Samples.request, 61000, Samples.hello);
                     (Samples.request, 61000, Samples.hello)]).
  { repeat (constructor; [split; [reflexivity | split; [simpl; lia | apply Hcounted]] |]).
    constructor. }
  pose proof (window_admits_exactly Samples.hostname Samples.limit3 Samples.request 1000
                Samples.hello _ Samples.freshLimiter Hopen (Hcounted _) Hrest) as [Hlen Hall].
  split; [exact Hlen |]. split.
  - intros res Hres. apply (Hall 2%nat _ res eq_refl Hres). right. simpl. lia.
  - intros res Hres. apply (Hall 3%nat (Samples.request, 61000, Samples.hello) res eq_refl Hres).
    split; [discriminate | simpl; lia].
Defined.



(** X12. When the continuation raises, the limiter lets the error out
    unchanged, writes no headers, and the request stays counted: the
    entry stored before the continuation ran (count 1 for a new window,
    one more otherwise) is what remains, also with
    [skipSuccessfulRequests] set. *)
Theorem failure_stays_counted (hostname : string -> string) (options : RateLimitOptions)
    (req : Request) (now : Z) (e : Exn) (w : World) :
  ~ over_limit hostname options req (at_time now w) ->
  exists c',
    requestWith hostname options req now (Rejected e) w =
      (Rejected e, store (keyOf hostname options req) c' (at_time now w), 1%nat) /\
    (c' = opened options now \/
     exists c, clients w !! keyOf hostname options req = Some c /\ c' = bumped c).
Proof.
  intros Hnot.
  destruct (rateLimit_cases hostname options req (at_time now w))
    as [(Hover & _) | (_ & c' & Hr & Hc')]; [contradiction |].
  exists c'. split; [| exact Hc'].
  unfold requestWith, serve. rewrite Hr. reflexivity.
Qed.

Lemma failure_stays_counted_witness :
  ~ over_limit Samples.hostname Samples.limit2skip Samples.request
      (at_time 1000 Samples.freshLimiter) /\
  exists c',
    requestWith Samples.hostname Samples.limit2skip Samples.request 1000
      (Rejected Samples.boom) Samples.freshLimiter =
      (Rejected Samples.boom, store "example.test" c' (at_time 1000 Samples.freshLimiter), 1%nat) /\
    (c' = opened Samples.limit2skip 1000 \/
     exists c, clients Samples.freshLimiter !! "example.test"%string = Some c /\ c' = bumped c).
Proof.
  assert (Hnot : ~ over_limit Samples.hostname Samples.limit2skip Samples.request
                     (at_time 1000 Samples.freshLimiter))
    by (intros (c & Hc & _); discriminate Hc).
  split; [exact Hnot |].
  exact (failure_stays_counted Samples.hostname Samples.limit2skip Samples.request 1000
           Samples.boom Samples.freshLimiter Hnot).
Defined.
End RateLimitMore.

(** * Further properties of the CORS middleware *)

Module CorsMore.
Import Cors CorsRuns.

Section Facts.
Variable options : CorsOptions.

Lemma allowOrigin_negotiated req r :
  allowedOrigin (allowOrigin options req r) =
    match negotiated options req with
    | Some o => Some o
    | None => allowedOrigin r
    end.
Proof.
  unfold allowOrigin, negotiated, allowedOrigin. destruct (origin' options) as [s | l].
  - apply HeaderFacts.header_with_header_same.
  - destruct (headers_get (req_headers req) "Origin") as [o |]; [| reflexivity].
    destruct (truthy o && includes l o); [| reflexivity].
    apply HeaderFacts.header_with_header_same.
Qed.

Lemma allowOrigin_other req r name :
  same_name name "Access-Control-Allow-Origin" = false ->
  header (allowOrigin options req r) name = header r name.
Proof.
  intros Hn. unfold allowOrigin. destruct (origin' options) as [s | l].
  - apply HeaderFacts.header_with_header_other. exact Hn.
  - destruct (headers_get (req_headers req) "Origin") as [o |]; [| reflexivity].
    destruct (truthy o && includes l o); [| reflexivity].
    apply HeaderFacts.header_with_header_other. exact Hn.
Qed.

Lemma allowCredentials_header r :
  header (allowCredentials options r) "Access-Control-Allow-Credentials" =
    if credentials' options then Some "true"%string
    else header r "Access-Control-Allow-Credentials".
Proof.
  unfold allowCredentials. destruct (credentials' options); [| reflexivity].
  apply HeaderFacts.header_with_header_same.
Qed.

Lemma allowCredentials_other r name :
  same_name name "Access-Control-Allow-Credentials" = false ->
  header (allowCredentials options r) name = header r name.
Proof.
  intros Hn. unfold allowCredentials. destruct (credentials' options); [| reflexivity].
  apply HeaderFacts.header_with_header_other. exact Hn.
Qed.

Lemma includes_In l o : includes l o = true -> In o l.
Proof.
  unfold includes. intros H. apply existsb_exists in H as (x & Hx & Heq).
  apply String.eqb_eq in Heq. subst x. exact Hx.
Qed.

Lemma guard_allowOrigin req r : guard (allowOrigin options req r) = guard r.
Proof.
  unfold allowOrigin. destruct (origin' options) as [s | l]; [reflexivity |].
  destruct (headers_get (req_headers req) "Origin") as [o |]; [| reflexivity].
  destruct (truthy o && includes l o); reflexivity.
Qed.

Lemma setOrigin_writable req r :
  guard r = None -> setOrigin options req r = inl (allowOrigin options req r).
Proof.
  intros Hg. unfold setOrigin, allowOrigin. destruct (origin' options) as [s | l].
  - apply HeaderFacts.set_header_writable, Hg.
  - destruct (headers_get (req_headers req) "Origin") as [o |]; [| reflexivity].
    destruct (truthy o && includes l o); [| reflexivity].
    apply HeaderFacts.set_header_writable, Hg.
Qed.

Lemma setCredentials_writable r :
  guard r = None -> setCredentials options r = inl (allowCredentials options r).
Proof.
  intros Hg. unfold setCredentials, allowCredentials.
  destruct (credentials' options); [| reflexivity].
  apply HeaderFacts.set_header_writable, Hg.
Qed.

(** The header writes on a response whose headers can be written, and
    on one whose headers are immutable. *)
Lemma decorate_writable {W} req r (w : W) :
  guard r = None ->
  match setOrigin options req r with
  | inr e => Done (Rejected e) w
  | inl r1 =>
      match setCredentials options r1 with
      | inr e => Done (Rejected e) w
      | inl r2 => Done (Fulfilled r2) w
      end
  end = Done (Fulfilled (allowCredentials options (allowOrigin options req r))) w.
Proof.
  intros Hg. rewrite (setOrigin_writable req r Hg).
  rewrite setCredentials_writable by (rewrite guard_allowOrigin; exact Hg).
  reflexivity.
Qed.

Lemma decorate_immutable {W} req r (w : W) message :
  guard r = Some message ->
  match setOrigin options req r with
  | inr e => Done (Rejected e) w
  | inl r1 =>
      match setCredentials options r1 with
      | inr e => Done (Rejected e) w
      | inl r2 => Done (Fulfilled r2) w
      end
  end = Done (if writes options req then Rejected (ErrorObj message) else Fulfilled r) w.
Proof.
  intros Hg.
  assert (Hcred : match setCredentials options r with
                  | inr e => Done (Rejected e) w
                  | inl r2 => Done (Fulfilled r2) w
                  end =
                  Done (if credentials' options then Rejected (ErrorObj message)
                        else Fulfilled r) w).
  { unfold setCredentials. destruct (credentials' options); [| reflexivity].
    rewrite (HeaderFacts.set_header_immutable r _ _ message Hg). reflexivity. }
  unfold setOrigin, writes, negotiated. destruct (origin' options) as [s | l].
  - rewrite (HeaderFacts.set_header_immutable r _ _ message Hg). reflexivity.
  - destruct (headers_get (req_headers req) "Origin") as [o |]; [| exact Hcred].
    destruct (truthy o && includes l o); [| exact Hcred].
    rewrite (HeaderFacts.set_header_immutable r _ _ message Hg). reflexivity.
Qed.
End Facts.




End CorsMore.

(** * Further properties of the timeout guard *)

Module TimeoutMore.
Import Timeout.

(** X15. For every continuation, the guard invokes it once, with the
    timer armed at [timeoutMs]; its outcome is the outcome of the
    continuation or the 408 response, nothing else; and when it is done
    no timer is left pending, also when the continuation raised. *)
Theorem timeout_cleans_up (timeoutMs : Z) (h : Handler Timer) (req : Request) (t0 : Timer) :
  exists o,
    serve (timeout timeoutMs) h req t0 =
      (o, clearTimeout (snd (h req (Armed timeoutMs))), 1%nat) /\
    (o = fst (h req (Armed timeoutMs)) \/ o = Fulfilled requestTimeout) /\
    (forall ms, clearTimeout (snd (h req (Armed timeoutMs))) <> Armed ms).
Proof.
  unfold serve, timeout. cbn [runWith].
  destruct (h req (Armed timeoutMs)) as [o t]. cbn [fst snd].
  assert (Hclear : forall ms, clearTimeout t <> Armed ms)
    by (intros ms; destruct t; discriminate).
  destruct (race o t) as [r | e] eqn:Hrace.
  - eexists. split; [reflexivity |]. split; [| exact Hclear].
    unfold race in Hrace. destruct t; try (left; symmetry; exact Hrace). discriminate.
  - destruct (isTimeout e) eqn:Ht.
    + eexists. split; [reflexivity |]. split; [right; reflexivity | exact Hclear].
    + eexists. split; [reflexivity |]. split; [| exact Hclear].
      unfold race in Hrace. destruct t; try (left; symmetry; exact Hrace).
      inversion Hrace; subst e. discriminate Ht.
Qed.

Lemma runStage_timeout_fired
    (next : Compose.DState Timer -> option (Outcome * Compose.DState Timer))
    timeoutMs req t st o st1 :
  next (Compose.set_world (Armed timeoutMs) st) = Some (o, st1) ->
  Compose.world st1 = Fired ->
  Compose.runStage next (timeout timeoutMs req t) st = Some (Fulfilled requestTimeout, st1).
Proof.
  intros Hn Hw. unfold timeout. cbn [Compose.runStage]. rewrite Hn, Hw.
  cbn [race]. destruct st1. simpl in Hw. subst. reflexivity.
Qed.

Lemma timeout_cleans_up_witness :
  exists o,
    serve (timeout 30000) (settlesInTime (Rejected Samples.boom)) Samples.request Idle =
      (o, Cleared, 1%nat) /\
    (o = Rejected Samples.boom \/ o = Fulfilled requestTimeout) /\
    (forall ms, Cleared <> Armed ms).
Proof.
  exact (timeout_cleans_up 30000 (settlesInTime (Rejected Samples.boom)) Samples.request Idle).
Defined.

(** X16. Cancellation by the guard is advisory.  In a chain that ends
    with the guard, behind pass-through stages, a terminal handler whose
    response arrives after the deadline has fired was entered and has
    run all the same; the caller receives the 408 response and the
    response of the handler is dropped, under either policy. *)
Theorem late_handler_still_runs (pre : list (Middleware Timer)) (timeoutMs : Z)
    (handler : Handler Timer) (options : Compose.MiddlewareOptions Timer)
    (req : Request) (t0 : Timer) (r : Response) :
  Forall Compose.pass_through pre ->
  handler req (Armed timeoutMs) = (Fulfilled r, Fired) ->
  Compose.compose (pre ++ [timeout timeoutMs]) handler options req t0 =
    Some (Fulfilled requestTimeout,
          {| Compose.index := Z.of_nat (length pre) + 1; Compose.world := Fired;
             Compose.log := map Compose.Invoke (seqZ 0 (Z.of_nat (length pre) + 2)) |}).
Proof.
  intros Hpre Hh.
  destruct (ComposeMore.chain_middle pre [] (timeout timeoutMs)) as (Hlk & Hdepth & Hi).
  assert (Hlen : Z.of_nat (length (pre ++ [timeout timeoutMs])) = Z.of_nat (length pre) + 1)
    by (rewrite length_app; simpl; lia).
  unfold Compose.compose, Compose.composedHandler.
  rewrite Hdepth, ComposeMore.initial_before.
  apply (ComposeMore.through_prefix _ _ _ _ _ (Z.of_nat (length pre)));
    [exact Hi | apply ComposeMore.chain_prefix, Hpre | lia | lia |].
  set (i := Z.of_nat (length pre)) in *.
  cbn [length]. rewrite ComposeFacts.dispatch_S.
  destruct (Z.leb_spec i (Compose.index (ComposeRuns.before t0 i))) as [Hle | _];
    [simpl in Hle; lia |].
  destruct (Z.ltb_spec i (Z.of_nat (length (pre ++ [timeout timeoutMs])))); [| lia].
  match goal with
  | |- context [match ?x with Some _ => _ | None => _ end] =>
      let E := fresh "E" in
      assert (E : x = Some (timeout timeoutMs)) by exact Hlk; rewrite E; clear E
  end.
  erewrite runStage_timeout_fired; [reflexivity | | reflexivity].
  rewrite ComposeMore.entered_state by lia.
  rewrite ComposeFacts.dispatch_S. cbn [Compose.index Compose.world].
  destruct (Z.leb_spec (i + 1) i); [lia |].
  destruct (Z.ltb_spec (i + 1) (Z.of_nat (length (pre ++ [timeout timeoutMs])))); [lia |].
  destruct (Z.eqb_spec (i + 1) (Z.of_nat (length (pre ++ [timeout timeoutMs])))); [| lia].
  rewrite Hh. cbn [Compose.catch].
  unfold Compose.set_world, Compose.record, Compose.set_index.
  cbn [Compose.log Compose.index Compose.world].
  replace (i + 2) with (i + 1 + 1) by lia.
  rewrite (seqZ_app 0 (i + 1) 1) by lia. rewrite map_app. reflexivity.
Qed.

Lemma late_handler_still_runs_witness :
  Forall Compose.pass_through [@Compose.passThrough Timer] /\
  settlesTooLate (Fulfilled Samples.hello) Samples.request (Armed 30000) =
    (Fulfilled Samples.hello, Fired) /\
  Compose.compose ([Compose.passThrough] ++ [timeout 30000])
      (settlesTooLate (Fulfilled Samples.hello)) Compose.noOptions Samples.request Idle =
    Some (Fulfilled requestTimeout,
          {| Compose.index := 2; Compose.world := Fired;
             Compose.log := [Compose.Invoke 0; Compose.Invoke 1; Compose.Invoke 2] |}).
Proof.
  assert (H1 : Forall Compose.pass_through [@Compose.passThrough Timer])
    by (repeat constructor; apply ComposeFacts.passThrough_pass_through).
  split; [exact H1 |]. split; [reflexivity |].
  exact (late_handler_still_runs [Compose.passThrough] 30000
           (settlesTooLate (Fulfilled Samples.hello)) Compose.noOptions Samples.request Idle
           Samples.hello H1 eq_refl).
Defined.
End TimeoutMore.

(** * Further properties of the context store *)

Module ContextMore.
Import Context.

Section Facts.
Context {V : Type}.
Implicit Types (w : World V) (req : ReqRef) (l : loc).

Lemma read_write_other_key l key key' (value : V) w :
  key' <> key -> read l key' (write l key value w) = read l key' w.
Proof.
  intros Hne. unfold read, write. simpl. rewrite lookup_alter_eq.
  destruct (heap w !! l) as [obj |]; simpl; [| reflexivity].
  apply lookup_insert_ne. congruence.
Qed.

Lemma read_write_other_object l l' key key' (value : V) w :
  l' <> l -> read l' key' (write l key value w) = read l' key' w.
Proof.
  intros Hne. unfold read, write. simpl. rewrite lookup_alter_ne by congruence. reflexivity.
Qed.

Lemma setContext_attached req key (value : V) w l :
  contextOf w !! req = Some l ->
  setContext req key value w = attach req l (write l key value w).
Proof. intros H. unfold setContext, getContext. rewrite H. reflexivity. Qed.

Lemma setContext_other_requests req key (value : V) w other :
  other <> req -> contextOf (setContext req key value w) !! other = contextOf w !! other.
Proof.
  intros Hne. unfold setContext. destruct (getContext req w) as [l w1] eqn:Hg.
  unfold attach. simpl. rewrite lookup_insert_ne by congruence.
  unfold getContext in Hg. destruct (contextOf w !! req); inversion Hg; subst; reflexivity.
Qed.

Lemma setContext_detached req key (value : V) w :
  contextOf w !! req = None ->
  setContext req key value w =
    attach req (fresh (dom (heap w))) (write (fresh (dom (heap w))) key value (snd (alloc ∅ w))).
Proof. intros H. unfold setContext, getContext. rewrite H. reflexivity. Qed.
End Facts.

(** X17. [setContext] on one request leaves the others alone: the
    context attached to any other request is the same object as before,
    and every context object that is not the one of this request reads
    the same at every key.  So two requests whose contexts are different
    objects never see each other's values. *)
Theorem setContext_isolated {V : Type} (req : ReqRef) (key : string) (value : V)
    (w : World V) :
  let w' := setContext req key value w in
  (forall other, other <> req -> contextOf w' !! other = contextOf w !! other) /\
  (forall l k, is_Some (heap w !! l) -> contextOf w !! req <> Some l ->
     read l k w' = read l k w).
Proof.
  cbv zeta. split.
  - intros other Hne. apply setContext_other_requests. exact Hne.
  - intros l k Hl Hnot. destruct (contextOf w !! req) as [l0 |] eqn:Hc.
    + rewrite (setContext_attached req key value w l0 Hc).
      unfold attach, read. simpl. rewrite lookup_alter_ne by congruence. reflexivity.
    + rewrite (setContext_detached req key value w Hc).
      unfold attach, read, write, alloc. simpl.
      assert (Hfresh : fresh (dom (heap w)) <> l).
      { intros Heq. pose proof (is_fresh (dom (heap w))) as Hf. rewrite Heq in Hf.
        apply Hf. apply elem_of_dom. exact Hl. }
      rewrite lookup_alter_ne by exact Hfresh.
      rewrite lookup_insert_ne by exact Hfresh. reflexivity.
Qed.

Lemma setContext_isolated_witness :
  let w0 : World Z := setContext 1%nat "userId" 7 {| heap := ∅; contextOf := ∅ |} in
  let w' := setContext 2%nat "userId" 9 w0 in
  contextOf w' !! 1%nat = contextOf w0 !! 1%nat /\
  read 1%positive "userId" w' = read 1%positive "userId" w0.
Proof.
  pose proof (setContext_isolated 2%nat "userId" 9
                (setContext 1%nat "userId" 7 ({| heap := ∅; contextOf := ∅ |} : World Z)))
    as [H1 H2].
  split.
  - apply H1. discriminate.
  - apply H2; [vm_compute; eauto | vm_compute; discriminate].
Defined.

(** X18. Values set on a request accumulate in one context: after
    [setContext] for [key1] and then for [key2], [getContext] returns a
    context in which [key2] reads the second value and [key1] reads the
    first value when the keys differ (the second one when they are the
    same); and a request that had a context keeps that same object, all
    its other keys reading as before. *)
Theorem setContext_accumulates {V : Type} (req : ReqRef) (key1 key2 : string)
    (value1 value2 : V) (w : World V) :
  (forall l, contextOf w !! req = Some l -> is_Some (heap w !! l)) ->
  let w2 := setContext req key2 value2 (setContext req key1 value1 w) in
  exists l,
    getContext req w2 = (l, w2) /\
    read l key2 w2 = Some value2 /\
    (key1 <> key2 -> read l key1 w2 = Some value1) /\
    (forall l0, contextOf w !! req = Some l0 ->
       l = l0 /\ forall k, k <> key1 -> k <> key2 -> read l k w2 = read l0 k w).
Proof.
  intros Hwf. cbv zeta.
  destruct (ContextFacts.setContext_observed req key1 value1 w Hwf) as (l & Hatt & Hg & Hr).
  set (w1 := setContext req key1 value1 w) in *.
  assert (Hl : is_Some (heap w1 !! l)).
  { unfold read in Hr. destruct (heap w1 !! l); [eauto | discriminate]. }
  rewrite (setContext_attached req key2 value2 w1 l Hatt).
  exists l. split; [| split; [| split]].
  - apply ContextFacts.getContext_attached. unfold attach. simpl. apply lookup_insert_eq.
  - change (read l key2 (write l key2 value2 w1) = Some value2).
    apply ContextFacts.read_write. exact Hl.
  - intros Hne. change (read l key1 (write l key2 value2 w1) = Some value1).
    rewrite read_write_other_key by exact Hne. exact Hr.
  - intros l0 Hc.
    assert (l = l0).
    { unfold w1 in Hatt. rewrite (setContext_attached req key1 value1 w l0 Hc) in Hatt.
      unfold attach in Hatt. simpl in Hatt. rewrite lookup_insert_eq in Hatt. congruence. }
    subst l0. split; [reflexivity |]. intros k Hk1 Hk2.
    change (read l k (write l key2 value2 w1) = read l k w).
    rewrite read_write_other_key by exact Hk2.
    unfold w1. rewrite (setContext_attached req key1 value1 w l Hc).
    change (read l k (write l key1 value1 w) = read l k w).
    apply read_write_other_key. exact Hk1.
Qed.

Lemma setContext_accumulates_witness :
  let w0 : World Z := {| heap := ∅; contextOf := ∅ |} in
  let w2 := setContext 0%nat "userId" 123 (setContext 0%nat "startTime" 5 w0) in
  exists l,
    getContext 0%nat w2 = (l, w2) /\
    read l "userId" w2 = Some 123 /\
    read l "startTime" w2 = Some 5.
Proof.
  assert (H : forall l : loc,
             contextOf ({| heap := ∅; contextOf := ∅ |} : World Z) !! 0%nat = Some l ->
             is_Some (heap ({| heap := ∅; contextOf := ∅ |} : World Z) !! l))
    by (intros l Hl; discriminate Hl).
  destruct (setContext_accumulates 0%nat "startTime" "userId" 5 123
              ({| heap := ∅; contextOf := ∅ |} : World Z) H) as (l & Hg & Hr2 & Hr1 & _).
  exists l. split; [exact Hg |]. split; [exact Hr2 |]. apply Hr1. discriminate.
Defined.

(** X19. [withContext] gives every request a context of its own,
    copied from the initial one: after two requests have passed it, a
    value set on the first is read on the first and not on the second,
    which still reads the initial values; and neither write reaches the
    initial context, which a third request would be given unchanged. *)
Theorem withContext_copies {V : Type} (initialContext : gmap string V)
    (req1 req2 : ReqRef) (key : string) (value : V) (w : World V) :
  req1 <> req2 ->
  exists w1 k1 w2 k2 l1 l2,
    withContext initialContext req1 w = Await w1 k1 /\
    withContext initialContext req2 w1 = Await w2 k2 /\
    (forall o w', k1 o w' = Done o w') /\ (forall o w', k2 o w' = Done o w') /\
    let w3 := setContext req1 key value w2 in
    getContext req1 w3 = (l1, w3) /\ getContext req2 w3 = (l2, w3) /\
    l1 <> l2 /\
    read l1 key w3 = Some value /\
    (forall k, k <> key -> read l1 k w3 = initialContext !! k) /\
    (forall k, read l2 k w3 = initialContext !! k).
Proof.
  intros Hne. unfold withContext, alloc.
  set (l1 := fresh (dom (heap w))).
  set (w1 := attach req1 l1 {| heap := <[l1 := initialContext]> (heap w);
                               contextOf := contextOf w |}).
  set (l2 := fresh (dom (heap w1))).
  set (w2 := attach req2 l2 {| heap := <[l2 := initialContext]> (heap w1);
                               contextOf := contextOf w1 |}).
  exists w1, (fun o w' => Done o w'), w2, (fun o w' => Done o w'), l1, l2.
  split; [reflexivity |]. split; [reflexivity |].
  split; [reflexivity |]. split; [reflexivity |]. cbv zeta.
  assert (H12 : l1 <> l2).
  { intros Heq. pose proof (is_fresh (dom (heap w1))) as Hf. fold l2 in Hf.
    rewrite <- Heq in Hf. apply Hf. apply elem_of_dom. unfold w1, attach. simpl.
    rewrite lookup_insert_eq. eauto. }
  assert (Hc1 : contextOf w2 !! req1 = Some l1).
  { unfold w2, attach. simpl. rewrite lookup_insert_ne by congruence.
    apply lookup_insert_eq. }
  assert (Hh1 : heap w2 !! l1 = Some initialContext).
  { unfold w2, attach. simpl. rewrite lookup_insert_ne by congruence.
    apply lookup_insert_eq. }
  assert (Hh2 : heap w2 !! l2 = Some initialContext).
  { unfold w2, attach. simpl. apply lookup_insert_eq. }
  rewrite (setContext_attached req1 key value w2 l1 Hc1).
  split; [apply ContextFacts.getContext_attached; unfold attach; simpl; apply lookup_insert_eq |].
  split.
  { apply ContextFacts.getContext_attached. unfold attach. simpl.
    rewrite lookup_insert_ne by congruence. apply lookup_insert_eq. }
  split; [exact H12 |].
  split.
  { change (read l1 key (write l1 key value w2) = Some value).
    apply ContextFacts.read_write. rewrite Hh1. eauto. }
  split.
  { intros k Hk. change (read l1 k (write l1 key value w2) = initialContext !! k).
    rewrite read_write_other_key by exact Hk. unfold read. rewrite Hh1. reflexivity. }
  intros k. change (read l2 k (write l1 key value w2) = initialContext !! k).
  rewrite (read_write_other_object l1 l2 key k value w2) by congruence.
  unfold read. rewrite Hh2. reflexivity.
Qed.

Lemma withContext_copies_witness :
  1%nat <> 2%nat /\
  exists w1 k1 w2 k2 l1 l2,
    withContext ({[ "plan"%string := 1 ]} : gmap string Z) 1%nat
      {| heap := ∅; contextOf := ∅ |} = Await w1 k1 /\
    withContext ({[ "plan"%string := 1 ]} : gmap string Z) 2%nat w1 = Await w2 k2 /\
    let w3 := setContext 1%nat "plan" 2 w2 in
    getContext 1%nat w3 = (l1, w3) /\ getContext 2%nat w3 = (l2, w3) /\
    read l1 "plan" w3 = Some 2 /\ read l2 "plan" w3 = Some 1.
Proof.
  assert (H : 1%nat <> 2%nat) by discriminate.
  split; [exact H |].
  destruct (withContext_copies ({[ "plan"%string := 1 ]} : gmap string Z) 1%nat 2%nat
              "plan" 2 {| heap := ∅; contextOf := ∅ |} H)
    as (w1 & k1 & w2 & k2 & l1 & l2 & E1 & E2 & _ & _ & G1 & G2 & _ & R1 & _ & R2).
  exists w1, k1, w2, k2, l1, l2.
  split; [exact E1 |]. split; [exact E2 |]. cbv zeta.
  split; [exact G1 |]. split; [exact G2 |]. split; [exact R1 |].
  rewrite (R2 "plan"%string). reflexivity.
Defined.
End ContextMore.

(** * Properties of the logger *)

Module LoggerFacts.
Import Logger.

Section Facts.
Variable Time : Type.
Variable elapsed : Time -> Time -> string.
Variable pathname : string -> string.
Variable search : string -> string.
Variable fromEntries : Headers -> list (string * string).
Variable V : Type.
Variable ofTime : Time -> V.
Variable options : LoggerOptions.

Local Abbreviation logger := (logger Time elapsed pathname search fromEntries V ofTime options).
Local Abbreviation entries := (entries pathname search fromEntries options).

Lemma entries_length req stamp response took requestBody :
  length (entries req stamp response took requestBody) =
    match format' options with
    | Detailed =>
        (1 + (if includeHeaders' options then 1 else 0)
           + (match truthyBody requestBody with Some _ => 1 | None => 0 end))%nat
    | _ => 1%nat
    end.
Proof.
  unfold Logger.entries. destruct (format' options); [reflexivity | | reflexivity].
  rewrite !length_app. simpl.
  destruct (includeHeaders' options), (truthyBody requestBody); reflexivity.
Qed.
End Facts.

(** X20. The logger invokes its continuation once and hands its
    response on as it is, for every configuration and also when the
    body of the request cannot be read.  What it prints comes after
    what was on the console: one entry in the simple and the json
    format, and in the detailed format one more when headers are
    included and one more when a body text is logged; the simple line
    carries the method, the path, the status and the time between the
    clock reading before the continuation and the one after.  When the
    continuation raises, the error comes out unchanged and nothing is
    printed. *)
Theorem logger_passes_through (Time : Type) (elapsed : Time -> Time -> string)
    (pathname search : string -> string) (fromEntries : Headers -> list (string * string))
    (V : Type) (ofTime : Time -> V) (options : LoggerOptions)
    (ref : Context.ReqRef) (b : Body) (req : Request)
    (h : Handler (World Time V)) (w : World Time V) :
  let w1 := set_store Time V
              (Context.setContext ref "startTime" (ofTime (perf Time V w)) (store Time V w)) w in
  match h req w1 with
  | (Fulfilled r, w2) =>
      exists lines,
        serve (logger Time elapsed pathname search fromEntries V ofTime options ref b) h req w =
          (Fulfilled r, print Time V lines w2, 1%nat) /\
        console Time V (print Time V lines w2) = console Time V w2 ++ lines /\
        length lines =
          match format' options with
          | Detailed =>
              (1 + (if includeHeaders' options then 1 else 0)
                 + (match truthyBody (readBody options b) with Some _ => 1 | None => 0 end))%nat
          | _ => 1%nat
          end /\
        (format' options = Simple ->
         lines = [Line (method req +:+ " " +:+ pathname (url req) +:+ " -> "
                        +:+ pretty (status r) +:+ " ("
                        +:+ elapsed (perf Time V w) (perf Time V w2) +:+ "ms)")])
  | (Rejected e, w2) =>
      serve (logger Time elapsed pathname search fromEntries V ofTime options ref b) h req w =
        (Rejected e, w2, 1%nat)
  end.
Proof.
  cbv zeta. unfold serve, logger. cbn [runWith].
  destruct (h req _) as [[r | e] w2]; [| reflexivity].
  eexists. split; [reflexivity |]. split; [reflexivity |].
  split; [apply entries_length |].
  intros Hf. unfold entries. rewrite Hf. reflexivity.
Qed.

Lemma logger_passes_through_witness :
  let w : World Z Z :=
    {| store := {| Context.heap := ∅; Context.contextOf := ∅ |};
       perf := 1500; date := "2025-01-01T00:00:00.000Z"; console := [Line "earlier"] |} in
  let lg := Logger.logger Z (fun a z => pretty (z - a)) (fun u => u) (fun _ => EmptyString)
              (fun hs => hs) Z (fun t => t) (mkOptions None None None) 0%nat Unreadable in
  let h : Handler (World Z Z) := fun _ w' =>
    (Fulfilled Samples.hello,
     {| store := store Z Z w'; perf := 1512; date := date Z Z w'; console := console Z Z w' |}) in
  exists lines w2,
    serve lg h Samples.request w = (Fulfilled Samples.hello, print Z Z lines w2, 1%nat) /\
    console Z Z (print Z Z lines w2) = [Line "earlier"] ++ lines /\
    lines = [Line "GET http://example.test/items -> 200 (12ms)"].
Proof.
  destruct (logger_passes_through Z (fun a z => pretty (z - a)) (fun u => u)
              (fun _ => EmptyString) (fun hs => hs) Z (fun t => t)
              (mkOptions None None None) 0%nat Unreadable Samples.request
              (fun _ w' =>
                 (Fulfilled Samples.hello,
                  {| store := store Z Z w'; perf := 1512; date := date Z Z w';
                     console := console Z Z w' |}))
              {| store := {| Context.heap := ∅; Context.contextOf := ∅ |};
                 perf := 1500; date := "2025-01-01T00:00:00.000Z";
                 console := [Line "earlier"] |})
    as (lines & Hs & Hc & _ & Hsimple).
  eexists lines, _. split; [exact Hs |]. split; [exact Hc |].
  exact (Hsimple eq_refl).
Defined.

(** X21. Before the continuation runs the logger has stored the clock
    reading under "startTime" in the context of the request, creating
    and attaching a context when the request had none: the stages after
    it get that context from [getContext] and read the value there.
    Nothing is printed yet, the clocks are as they were, and the
    contexts attached to other requests are the same. *)
Theorem logger_records_start (Time : Type) (elapsed : Time -> Time -> string)
    (pathname search : string -> string) (fromEntries : Headers -> list (string * string))
    (V : Type) (ofTime : Time -> V) (options : LoggerOptions)
    (ref : Context.ReqRef) (b : Body) (req : Request) (w : World Time V) :
  (forall l, Context.contextOf (store Time V w) !! ref = Some l ->
             is_Some (Context.heap (store Time V w) !! l)) ->
  exists w1 k l,
    logger Time elapsed pathname search fromEntries V ofTime options ref b req w = Await w1 k /\
    Context.getContext ref (store Time V w1) = (l, store Time V w1) /\
    Context.read l "startTime" (store Time V w1) = Some (ofTime (perf Time V w)) /\
    console Time V w1 = console Time V w /\
    perf Time V w1 = perf Time V w /\ date Time V w1 = date Time V w /\
    (forall other, other <> ref ->
       Context.contextOf (store Time V w1) !! other =
         Context.contextOf (store Time V w) !! other).
Proof.
  intros Hwf.
  destruct (ContextFacts.setContext_observed ref "startTime" (ofTime (perf Time V w))
              (store Time V w) Hwf) as (l & _ & Hg & Hr).
  unfold logger. eexists _, _, l. split; [reflexivity |].
  split; [exact Hg |]. split; [exact Hr |].
  split; [reflexivity |]. split; [reflexivity |]. split; [reflexivity |].
  intros other Hne. apply ContextMore.setContext_other_requests. exact Hne.
Qed.

Lemma logger_records_start_witness :
  let w : World Z Z :=
    {| store := {| Context.heap := ∅; Context.contextOf := ∅ |};
       perf := 1500; date := "2025-01-01T00:00:00.000Z"; console := [] |} in
  exists w1 k l,
    Logger.logger Z (fun a z => pretty (z - a)) (fun u => u) (fun _ => EmptyString)
      (fun hs => hs) Z (fun t => t) (mkOptions None None None) 0%nat NoBody
      Samples.request w = Await w1 k /\
    Context.getContext 0%nat (store Z Z w1) = (l, store Z Z w1) /\
    Context.read l "startTime" (store Z Z w1) = Some 1500.
Proof.
  assert (H : forall l : Context.loc,
             Context.contextOf
               ({| Context.heap := ∅; Context.contextOf := ∅ |} : Context.World Z) !! 0%nat =
               Some l ->
             is_Some (Context.heap
                        ({| Context.heap := ∅; Context.contextOf := ∅ |} : Context.World Z) !! l))
    by (intros l Hl; discriminate Hl).
  destruct (logger_records_start Z (fun a z => pretty (z - a)) (fun u => u)
              (fun _ => EmptyString) (fun hs => hs) Z (fun t => t)
              (mkOptions None None None) 0%nat NoBody Samples.request
              {| store := {| Context.heap := ∅; Context.contextOf := ∅ |};
                 perf := 1500; date := "2025-01-01T00:00:00.000Z"; console := [] |} H)
    as (w1 & k & l & E & G & R & _).
  exists w1, k, l. split; [exact E |]. split; [exact G | exact R].
Defined.
End LoggerFacts.
